(** * MonteCarlo: the 1-D Ising chain of [montecarlo/montecarlo.py]

    A shallow embedding of [SpinConfig1D] and [IsingHamiltonian1D].

    - Python objects live in a store ([heap]) and are passed by reference
      ([loc]); methods run in a state-and-exception monad [M] over the
      store and the shared random source, so that in-place mutation,
      [copy.deepcopy] and the state left behind by a raised exception are
      all visible.
    - A numpy integer array is a [list Z]; indexing follows numpy: an
      index in [[-len, len)] is accepted, a negative one counts from the
      end, any other index raises [IndexError] when it fits a C [long] and
      [OverflowError] when it does not.  A Python list raises [IndexError]
      for every index outside [[-len, len)].
    - The store is unbounded: memory exhaustion and numpy's limit on the
      dimension of an array are not modelled.
    - Python floats are idealised as real numbers ([R]): rounding is not
      modelled.  The [print] calls are not modelled.
    - The module-level [random] generator is a stream of raw outputs; every
      outcome of the generator is some stream. *)

From Stdlib Require Import ZArith Reals Lra Lia.
From stdpp Require Import base numbers list gmap strings.

Local Open Scope Z_scope.

(** ** Exceptions and results *)

(** [IndexError], [OverflowError] and [ValueError] are the Python exceptions
    the source can raise (list and numpy indexing, [np.zeros],
    [random.sample]).  The remaining
    constructors are the error names the specification gives to the
    operations whose code is not part of the source tree.  [InvalidRef] is
    raised on a reference that was never allocated; Python cannot produce
    one. *)
Inductive exn : Type :=
  | IndexError
  | OverflowError
  | ValueError
  | InvalidTemperatureError
  | EncodingRangeError
  | SizeTooLargeError
  | InvalidRef.

Inductive result (A : Type) : Type :=
  | Ok (a : A)
  | Raise (e : exn).
Arguments Ok {A} a.
Arguments Raise {A} e.

(** ** numpy arrays and Python lists *)

(** Index normalisation of a Python list: an index in [[-len, len)] is
    accepted, a negative one counts from the end, and every other integer,
    however large, is an [IndexError]. *)
Definition norm_index (len : nat) (i : Z) : result nat :=
  if decide (0 ≤ i < Z.of_nat len) then Ok (Z.to_nat i)
  else if decide (- Z.of_nat len ≤ i < 0) then Ok (Z.to_nat (i + Z.of_nat len))
  else Raise IndexError.

(** [a[i]] on a Python list *)
Definition seq_get {A : Type} (a : list A) (i : Z) : result A :=
  match norm_index (length a) i with
  | Ok k => match a !! k with Some x => Ok x | None => Raise IndexError end
  | Raise e => Raise e
  end.

(** The range of a C [long], to which numpy converts an index. *)
Definition fits_long (i : Z) : Prop := - 2 ^ 63 ≤ i < 2 ^ 63.

#[global] Instance fits_long_decision i : Decision (fits_long i).
Proof. unfold fits_long. apply _. Defined.

(** Index normalisation of a numpy array: as for a list, except that an
    index that does not fit a C [long] is an [OverflowError].  numpy
    converts the index before it looks at the bounds; an array has fewer
    than [2^63] elements, so an index inside [[-len, len)] always fits and
    the bounds can be looked at first ([np_norm_index_conversion_first]
    below). *)
Definition np_norm_index (len : nat) (i : Z) : result nat :=
  if decide (0 ≤ i < Z.of_nat len) then Ok (Z.to_nat i)
  else if decide (- Z.of_nat len ≤ i < 0) then Ok (Z.to_nat (i + Z.of_nat len))
  else if decide (fits_long i) then Raise IndexError
  else Raise OverflowError.

(** [a[i]] on a numpy array *)
Definition arr_get {A : Type} (a : list A) (i : Z) : result A :=
  match np_norm_index (length a) i with
  | Ok k => match a !! k with Some x => Ok x | None => Raise IndexError end
  | Raise e => Raise e
  end.

(** [a[i] = v] on a numpy array *)
Definition arr_set {A : Type} (a : list A) (i : Z) (v : A) : result (list A) :=
  match np_norm_index (length a) i with
  | Ok k => Ok (<[k := v]> a)
  | Raise e => Raise e
  end.

(** [np.zeros(n, dtype=int)]: a negative dimension is a [ValueError].
    numpy also refuses a dimension it cannot allocate (from [2^63] on in
    any case, earlier for lack of memory); the store being unbounded, that
    refusal is not modelled, and a statement that the array is made is
    about a dimension the machine can hold. *)
Definition np_zeros (n : Z) : result (list Z) :=
  if decide (n < 0) then Raise ValueError else Ok (replicate (Z.to_nat n) 0).

(** [range(a, b)] *)
Definition py_range (a b : Z) : list Z := seqZ a (b - a).

(** ** The random source *)

(** The generator is the stream of its future raw outputs. *)
Definition rng : Type := nat → N.

Definition rng_next (r : rng) : N * rng := (r 0%nat, λ n, r (S n)).

Definition rng_drop (k : nat) (r : rng) : rng := λ n, r (k + n)%nat.

(** [_randbelow(n)] *)
Definition randbelow (n : nat) (r : rng) : nat * rng :=
  let '(x, r') := rng_next r in (N.to_nat (x `mod` N.of_nat n)%N, r').

(** The selection loop of [random.sample]: [k] draws from a pool, the
    drawn slot being refilled with the last live element of the pool.
    (CPython switches to a set of already chosen indices for large
    populations; both loops return [k] distinct members of the
    population.) *)
Fixpoint sample_pool (pool : list Z) (k : nat) (r : rng) : list Z * rng :=
  match k with
  | O => ([], r)
  | S k' =>
      let '(j, r1) := randbelow (length pool) r in
      match pool !! j with
      | None => ([], r1)
      | Some x =>
          let n1 := (length pool - 1)%nat in
          let pool' := take n1 (<[j := default x (pool !! n1)]> pool) in
          let '(rest, r2) := sample_pool pool' k' r1 in
          (x :: rest, r2)
      end
  end.

(** [random.sample(population, k)]: [ValueError] when the sample is
    larger than the population or negative. *)
Definition random_sample (population : list Z) (k : Z) (r : rng)
  : result (list Z) * rng :=
  if decide (0 ≤ k ≤ Z.of_nat (length population))
  then let '(l, r') := sample_pool population (Z.to_nat k) r in (Ok l, r')
  else (Raise ValueError, r).

(** The 53-bit resolution of [random.random()]. *)
Definition random_resolution : Z := 2 ^ 53.

(** The value in [[0, 1)] that [random.random()] builds from a raw output. *)
Definition uniform_of (x : N) : R :=
  (IZR (Z.of_N x `mod` random_resolution) / IZR random_resolution)%R.

(** ** The store *)

(** References are natural numbers. *)
Abbreviation loc := nat (only parsing).

(** The attributes of a [SpinConfig1D] instance. *)
Record SpinConfig1D : Type := mkSpinConfig1D {
  config : list Z;
  N : Z;
  pbc : bool
}.

Record world : Type := mkWorld {
  heap : gmap nat SpinConfig1D;
  rand : rng
}.

Definition M (A : Type) : Type := world → result A * world.

Definition ret {A} (a : A) : M A := λ w, (Ok a, w).
Definition raise {A} (e : exn) : M A := λ w, (Raise e, w).
Definition bind {A B} (m : M A) (f : A → M B) : M B :=
  λ w, match m w with
       | (Ok a, w') => f a w'
       | (Raise e, w') => (Raise e, w')
       end.
Definition lift {A} (x : result A) : M A := λ w, (x, w).

Notation "'let!' x ':=' m 'in' k" := (bind m (λ x, k))
  (at level 10, x name, m at level 100, k at level 200,
   format "'[v' 'let!'  x  ':='  m  'in' '/' k ']'").
Notation "'let!' ' p ':=' m 'in' k" := (bind m (λ p, k))
  (at level 10, p pattern, m at level 100, k at level 200,
   format "'[v' 'let!'  ' p  ':='  m  'in' '/' k ']'").

(** [for x in l: body x] *)
Fixpoint for_each {A} (l : list A) (body : A → M unit) : M unit :=
  match l with
  | [] => ret tt
  | x :: l' => let! _ := body x in for_each l' body
  end.

(** A [for] loop that updates a local variable. *)
Fixpoint for_acc {A B} (l : list A) (body : B → A → M B) (b : B) : M B :=
  match l with
  | [] => ret b
  | x :: l' => let! b' := body b x in for_acc l' body b'
  end.

(** Reading and writing the attributes of the object behind a reference. *)
Definition load (self : loc) : M SpinConfig1D :=
  λ w, match heap w !! self with
       | Some c => (Ok c, w)
       | None => (Raise InvalidRef, w)
       end.

Definition store (self : loc) (c : SpinConfig1D) : M unit :=
  λ w, (Ok tt, mkWorld (<[self := c]> (heap w)) (rand w)).

(** The reference handed out by the next allocation. *)
Definition fresh_loc (w : world) : loc := fresh (dom (heap w)).

Definition alloc (c : SpinConfig1D) : M loc :=
  λ w, let l := fresh_loc w in
       (Ok l, mkWorld (<[l := c]> (heap w)) (rand w)).

Definition get_config (self : loc) : M (list Z) :=
  let! c := load self in ret (config c).
Definition get_N (self : loc) : M Z :=
  let! c := load self in ret (N c).
Definition set_config (self : loc) (a : list Z) : M unit :=
  let! c := load self in store self (mkSpinConfig1D a (N c) (pbc c)).

(** Drawing from the shared generator. *)
Definition sample (population : list Z) (k : Z) : M (list Z) :=
  λ w, let '(x, r') := random_sample population k (rand w) in
       (x, mkWorld (heap w) r').

Definition random_random : M R :=
  λ w, let '(x, r') := rng_next (rand w) in
       (Ok (uniform_of x), mkWorld (heap w) r').

(** [copy.deepcopy(config)] *)
Definition deepcopy (config : loc) : M loc :=
  let! c := load config in alloc c.

(** ** class SpinConfig1D *)

(** [SpinConfig1D(N, pbc)] *)
Definition SpinConfig1D_new (N : Z) (pbc : bool) : M loc :=
  let! a := lift (np_zeros N) in
  alloc (mkSpinConfig1D a N pbc).

(** [self.initialize(M)] *)
Definition initialize (self : loc) (Mup : Z) : M unit :=
  let! n := get_N self in
  let! a := lift (np_zeros n) in
  let! _ := set_config self a in
  let! randomlist := sample (py_range 0 (n - 1)) Mup in
  for_each randomlist (λ i,
    let! a := get_config self in
    let! a' := lift (arr_set a i 1) in
    set_config self a').

(** [self[i]] *)
Definition getitem (self : loc) (i : Z) : M Z :=
  let! a := get_config self in
  lift (arr_get a i).

(** [self.flip_site(i)] *)
Definition flip_site (self : loc) (i : Z) : M unit :=
  let! a := get_config self in
  let! x := lift (arr_get a i) in
  if decide (x = 1)
  then let! a' := lift (arr_set a i 0) in set_config self a'
  else let! a' := lift (arr_set a i 1) in set_config self a'.

(** ** class IsingHamiltonian1D *)

(** The attributes set by [IsingHamiltonian1D.__init__(J, h, mu, pbc)];
    [ham_pbc] is the Hamiltonian's own [pbc] attribute. *)
Record IsingHamiltonian1D : Type := mkIsingHamiltonian1D {
  J : R;
  h : list R;
  mu : R;
  ham_pbc : bool
}.

(** [self.expectation_value(config)] *)
Definition expectation_value (self : IsingHamiltonian1D) (config : loc) : M R :=
  let! n := get_N config in
  let! e := for_acc (py_range 0 (n - 1)) (λ e i,
      let! a := getitem config i in
      let! b := getitem config (i + 1) in
      if decide (a = b) then ret (e - J self)%R else ret (e + J self)%R) 0%R in
  let! e := (if ham_pbc self then
      let! a := getitem config (n - 1) in
      let! b := getitem config 0 in
      if decide (a = b) then ret (e - J self)%R else ret (e + J self)%R
    else ret e) in
  for_acc (py_range 0 n) (λ e i,
      let! s := getitem config i in
      if decide (s ≠ 0)
      then let! hi := lift (seq_get (h self) i) in ret (e - mu self * hi)%R
      else let! hi := lift (seq_get (h self) i) in ret (e + mu self * hi)%R) e.

(** [self.delta_e_for_flip(i, config)]: the trial copy and the energy
    change are returned together. *)
Definition delta_e_for_flip (self : IsingHamiltonian1D) (i : Z) (config : loc)
  : M (loc * R) :=
  let! config_trial := deepcopy config in
  let! _ := flip_site config_trial i in
  let! e1 := expectation_value self config_trial in
  let! e0 := expectation_value self config in
  ret (config_trial, (e1 - e0)%R).

(** ** Operations whose code is not in the source tree *)

#[global] Instance Rle_decision (x y : R) : Decision (x <= y)%R := Rle_dec x y.
#[global] Instance Rlt_decision (x y : R) : Decision (x < y)%R := Rlt_dec x y.

(** Modelled from the spec: the binary expansion of [value], zero-padded
    to [width] digits, most significant digit first.  The source tree has
    no [set_int_config]; only the test calls it. *)
Definition binary_repr (width : nat) (value : Z) : list Z :=
  (λ i : nat, if Z.testbit value (Z.of_nat (width - 1 - i)) then 1 else 0)
    <$> seq 0 width.

(** Modelled from the spec: [SetFromInteger(value)] ([set_int_config] in
    the test), missing from the source tree.  It requires
    [0 <= value < 2^N], fails with [EncodingRangeError] otherwise, and
    sets site [i] to the [i]-th digit of the zero-padded expansion. *)
Definition set_int_config (self : loc) (value : Z) : M unit :=
  let! n := get_N self in
  if decide (0 ≤ value < 2 ^ n)
  then set_config self (binary_repr (Z.to_nat n) value)
  else raise EncodingRangeError.

(** Modelled from the spec: reading back all [N] sites through [self[i]]
    and rebuilding the integer under the same digit order (the read-back
    half of the encoding round trip); no such function is in the source
    tree. *)
Definition get_int_config (self : loc) : M Z :=
  let! n := get_N self in
  for_acc (py_range 0 n) (λ acc i,
      let! s := getitem self i in
      ret (2 * acc + s)) 0.

(** Modelled from the spec: the magnetization of a microstate, up
    counting [+1] and down [-1], not divided by [N]; the source tree has
    no such function. *)
Definition magnetization (config : loc) : M R :=
  let! n := get_N config in
  for_acc (py_range 0 n) (λ m i,
      let! s := getitem config i in
      if decide (s ≠ 0) then ret (m + 1)%R else ret (m - 1)%R) 0%R.

(** Modelled from the spec: the five running sums [Z], [sum w E],
    [sum w E^2], [sum w M], [sum w M^2] of the exact average, which belong
    to the missing [compute_average_values]. *)
Record sums : Type := mkSums {
  sum_Z : R; sum_E : R; sum_EE : R; sum_M : R; sum_MM : R
}.

(** Modelled from the spec: [ComputeAverageValues(N, Hamiltonian, T)]
    ([compute_average_values] in the test), missing from the source tree.
    The temperature is validated first, then the enumeration budget; every
    integer from [0] to [2^N - 1] is decoded into one configuration object
    and scored. *)
Definition compute_average_values (budget : Z) (n : Z)
    (ham : IsingHamiltonian1D) (T : R) : M (R * R * R * R) :=
  if decide (T <= 0)%R then raise InvalidTemperatureError
  else if decide (budget < 2 ^ n) then raise SizeTooLargeError
  else
    let! conf := SpinConfig1D_new n (ham_pbc ham) in
    let! acc := for_acc (py_range 0 (2 ^ n)) (λ acc v,
        let! _ := set_int_config conf v in
        let! Es := expectation_value ham conf in
        let! Ms := magnetization conf in
        let w := exp (- Es / T) in
        ret (mkSums (sum_Z acc + w) (sum_E acc + w * Es)
                    (sum_EE acc + w * (Es * Es)) (sum_M acc + w * Ms)
                    (sum_MM acc + w * (Ms * Ms)))%R)
        (mkSums 0 0 0 0 0) in
    let E := (sum_E acc / sum_Z acc)%R in
    let EE := (sum_EE acc / sum_Z acc)%R in
    let Mg := (sum_M acc / sum_Z acc)%R in
    let MM := (sum_MM acc / sum_Z acc)%R in
    ret (E, Mg, ((EE - E * E) / (T * T))%R, ((MM - Mg * Mg) / T)%R).

(** Modelled from the spec: the Metropolis acceptance rule. *)
Definition accept (T dE u : R) : Prop :=
  (dE <= 0)%R ∨ (u < exp (- dE / T))%R.

#[global] Instance accept_decision T dE u : Decision (accept T dE u).
Proof. unfold accept. apply _. Defined.

(** Modelled from the spec: one site visit of the sweep. *)
Definition metropolis_site (ham : IsingHamiltonian1D) (T : R) (config : loc)
    (i : Z) : M unit :=
  let! '(_, dE) := delta_e_for_flip ham i config in
  let! u := random_random in
  if decide (accept T dE u) then flip_site config i else ret tt.

(** Modelled from the spec: [MetropolisSweep(config, Hamiltonian, T)]
    ([metropolis_sweep] in the test), missing from the source tree: the
    temperature is validated, then the sites are visited in index order. *)
Definition metropolis_sweep (ham : IsingHamiltonian1D) (config : loc) (T : R)
  : M unit :=
  if decide (T <= 0)%R then raise InvalidTemperatureError
  else
    let! n := get_N config in
    for_each (py_range 0 n) (metropolis_site ham T config).

(** ** Specification-level quantities *)

(** The data-model invariant of a configuration object. *)
Definition spins_ok (c : SpinConfig1D) : Prop :=
  Z.of_nat (length (config c)) = N c ∧ Forall (λ x, x = 0 ∨ x = 1) (config c).

Definition spin (s : list Z) (i : nat) : Z := nth i s 0.

Definition toggle (x : Z) : Z := if decide (x = 1) then 0 else 1.

(** The spins after flipping site [k]. *)
Definition flipped (s : list Z) (k : nat) : list Z := <[k := toggle (spin s k)]> s.

Definition with_config (c : SpinConfig1D) (a : list Z) : SpinConfig1D :=
  mkSpinConfig1D a (N c) (pbc c).

(** The world in which the object behind [l] has become [c]. *)
Definition update_obj (w : world) (l : loc) (c : SpinConfig1D) : world :=
  mkWorld (<[l := c]> (heap w)) (rand w).

Definition sum_R (l : list R) : R := foldr Rplus 0%R l.

Definition pair_energy (Jc : R) (a b : Z) : R :=
  if decide (a = b) then (- Jc)%R else Jc.

Definition site_energy (m hi : R) (s : Z) : R :=
  if decide (s = 1) then (- (m * hi))%R else (m * hi)%R.

Definition bond_term (ham : IsingHamiltonian1D) (s : list Z) : R :=
  (sum_R ((λ i, pair_energy (J ham) (spin s i) (spin s (S i)))
            <$> seq 0 (length s - 1))
   + (if ham_pbc ham
      then pair_energy (J ham) (spin s (length s - 1)) (spin s 0)
      else 0))%R.

Definition field_term (ham : IsingHamiltonian1D) (s : list Z) : R :=
  sum_R ((λ i, site_energy (mu ham) (nth i (h ham) 0%R) (spin s i))
           <$> seq 0 (length s)).

Definition energy (ham : IsingHamiltonian1D) (s : list Z) : R :=
  (bond_term ham s + field_term ham s)%R.

(** The array after [for i in picks: a[i] = 1]. *)
Definition set_up (a : list Z) (picks : list Z) : list Z :=
  fold_left (λ a i, <[Z.to_nat i := 1]> a) picks a.

(** The all-down array of an [n]-site chain. *)
Definition all_down (n : Z) : list Z := replicate (Z.to_nat n) 0.

(** The integer whose zero-padded binary expansion, most significant
    digit first, is the spin sequence. *)
Definition int_of_spins (s : list Z) : Z :=
  fold_left (λ acc x, 2 * acc + x) s 0.

(** The spins after visiting [sites] in order: at each site the energy
    change of the flip is compared with one fresh draw. *)
Fixpoint sweep_spins (ham : IsingHamiltonian1D) (T : R) (sites : list nat)
    (r : rng) (s : list Z) : list Z :=
  match sites with
  | [] => s
  | i :: rest =>
      let dE := (energy ham (flipped s i) - energy ham s)%R in
      let u := uniform_of (r 0%nat) in
      sweep_spins ham T rest (rng_drop 1 r)
        (if decide (accept T dE u) then flipped s i else s)
  end.

(** All spin sequences of length [n], in the order of the integers they
    encode. *)
Fixpoint microstates (n : nat) : list (list Z) :=
  match n with
  | O => [[]]
  | S n' => (cons 0 <$> microstates n') ++ (cons 1 <$> microstates n')
  end.

(** The signed sum over sites, up counting [+1] and down [-1]. *)
Definition magnetization_of (s : list Z) : R :=
  sum_R ((λ x, if decide (x = 1) then 1%R else (-1)%R) <$> s).

(** The Boltzmann weight [exp(-E_s / T)] of a microstate. *)
Definition boltzmann (ham : IsingHamiltonian1D) (T : R) (s : list Z) : R :=
  exp (- energy ham s / T).

(** [Z], the sum of the weights of all microstates of an [n]-site chain. *)
Definition partition_function (ham : IsingHamiltonian1D) (T : R) (n : nat) : R :=
  sum_R (boltzmann ham T <$> microstates n).

(** The Boltzmann-weighted average of an observable [f]. *)
Definition thermal_average (ham : IsingHamiltonian1D) (T : R) (n : nat)
    (f : list Z → R) : R :=
  (sum_R ((λ s, boltzmann ham T s * f s) <$> microstates n)
   / partition_function ham T n)%R.

(** One step of the accumulation, on the spins of the microstate. *)
Definition add_microstate (ham : IsingHamiltonian1D) (T : R) (acc : sums)
    (s : list Z) : sums :=
  let Es := energy ham s in
  let Ms := magnetization_of s in
  let w := exp (- Es / T) in
  (mkSums (sum_Z acc + w) (sum_E acc + w * Es) (sum_EE acc + w * (Es * Es))
          (sum_M acc + w * Ms) (sum_MM acc + w * (Ms * Ms)))%R.

(** ** Client programs and further quantities *)

(** [for i in range(config.N): config.flip_site(i)]: the global spin
    reversal. *)
Definition flip_all (config : loc) : M unit :=
  let! n := get_N config in
  for_each (py_range 0 n) (flip_site config).

(** The number of up sites of a [0]/[1] spin sequence. *)
Definition up_count (s : list Z) : Z := foldr Z.add 0 s.

(** The spins after flipping the listed sites one after the other. *)
Definition flipped_at (s : list Z) (sites : list nat) : list Z :=
  fold_left flipped sites s.

(** The part of the energy that involves site [k]: the bonds to its
    left and right neighbours, the wrap-around bond when [k] is an end of a
    periodic chain of at least two sites, and the field term of [k]. *)
Definition local_energy (ham : IsingHamiltonian1D) (s : list Z) (k : nat) : R :=
  ((if decide (0 < k)%nat
    then pair_energy (J ham) (spin s (k - 1)) (spin s k) else 0)
   + (if decide (S k < length s)%nat
      then pair_energy (J ham) (spin s k) (spin s (S k)) else 0)
   + (if ham_pbc ham
      then if decide ((k = 0%nat ∨ k = (length s - 1)%nat) ∧ (2 ≤ length s)%nat)
           then pair_energy (J ham) (spin s (length s - 1)) (spin s 0)
           else 0
      else 0)
   + site_energy (mu ham) (nth k (h ham) 0) (spin s k))%R.

(** ** The placeholder functions *)

(** The literal the two placeholder functions start from. *)
Definition quote : string := "The code is but a canvas to our imagination.".

(** The literal appended when the attribution is requested: a newline, a
    tab, then the text. *)
Definition attribution : string :=
  String (Ascii.ascii_of_nat 10)
    (String (Ascii.ascii_of_nat 9) "- Adapted from Henry David Thoreau").

(** [canvas2(with_attribution)] *)
Definition canvas2 (with_attribution : bool) : string :=
  let quote := quote in
  let quote := if with_attribution then quote +:+ attribution else quote in
  quote.

(** [canvas(with_attribution)] *)
Definition canvas (with_attribution : bool) : string :=
  let quote := quote in
  let quote := if with_attribution then quote +:+ attribution else quote in
  quote.

(** ** Example worlds *)

(** A generator whose raw outputs are all zero. *)
Definition no_entropy : rng := λ _, 0%N.

Definition chain3 : SpinConfig1D := mkSpinConfig1D [0; 0; 1] 3 true.

(** Coupling [J = 1], unit field on three sites, [mu = 2], periodic. *)
Definition ham3 : IsingHamiltonian1D :=
  mkIsingHamiltonian1D 1%R [1%R; 1%R; 1%R] 2%R true.

(** One three-site chain behind reference [0]. *)
Definition world3 : world := mkWorld {[ 0%nat := chain3 ]} no_entropy.

(** A chain without sites behind reference [0]. *)
Definition chain0 : SpinConfig1D := mkSpinConfig1D [] 0 true.

Definition world0 : world := mkWorld {[ 0%nat := chain0 ]} no_entropy.

(** [ham3] with a field list of one entry only. *)
Definition ham_short : IsingHamiltonian1D :=
  mkIsingHamiltonian1D 1%R [1%R] 2%R true.

(** The store before anything has been constructed. *)
Definition world_empty : world := mkWorld ∅ no_entropy.

(** ** The monad and the store *)

Lemma bind_Ok {A B} (m : M A) (f : A → M B) w a w' :
  m w = (Ok a, w') → bind m f w = f a w'.
Proof. intros E. unfold bind. by rewrite E. Qed.

Lemma bind_Raise {A B} (m : M A) (f : A → M B) w e w' :
  m w = (Raise e, w') → bind m f w = (Raise e, w').
Proof. intros E. unfold bind. by rewrite E. Qed.

Lemma world_eta w : mkWorld (heap w) (rand w) = w.
Proof. by destruct w. Qed.

Lemma load_run w l c : heap w !! l = Some c → load l w = (Ok c, w).
Proof. intros E. unfold load. by rewrite E. Qed.

Lemma get_config_run w l c :
  heap w !! l = Some c → get_config l w = (Ok (config c), w).
Proof.
  intros E. unfold get_config. by rewrite (bind_Ok _ _ _ _ _ (load_run _ _ _ E)).
Qed.

Lemma get_N_run w l c : heap w !! l = Some c → get_N l w = (Ok (N c), w).
Proof. intros E. unfold get_N. by rewrite (bind_Ok _ _ _ _ _ (load_run _ _ _ E)). Qed.

Lemma set_config_run w l c a :
  heap w !! l = Some c →
  set_config l a w = (Ok tt, update_obj w l (with_config c a)).
Proof.
  intros E. unfold set_config. by rewrite (bind_Ok _ _ _ _ _ (load_run _ _ _ E)).
Qed.

Lemma update_obj_lookup w l c : heap (update_obj w l c) !! l = Some c.
Proof. apply lookup_insert_eq. Qed.

Lemma update_obj_lookup_ne w l l' c :
  l ≠ l' → heap (update_obj w l c) !! l' = heap w !! l'.
Proof. intros. by apply lookup_insert_ne. Qed.

Lemma update_obj_twice w l c c' :
  update_obj (update_obj w l c) l c' = update_obj w l c'.
Proof. unfold update_obj. simpl. by rewrite insert_insert_eq. Qed.

Lemma update_obj_same w l c : heap w !! l = Some c → update_obj w l c = w.
Proof.
  intros E. unfold update_obj. rewrite (insert_id _ _ _ E). apply world_eta.
Qed.

Lemma getitem_run w l c i :
  heap w !! l = Some c → getitem l i w = (arr_get (config c) i, w).
Proof.
  intros E. unfold getitem. by rewrite (bind_Ok _ _ _ _ _ (get_config_run _ _ _ E)).
Qed.

(** ** Indexing *)

Lemma lookup_nth_lt {A} (l : list A) k d :
  (k < length l)%nat → l !! k = Some (nth k l d).
Proof.
  intros Hk. destruct (lookup_lt_is_Some_2 l k Hk) as [x Hx].
  rewrite Hx. f_equal. symmetry. by apply nth_lookup_Some.
Qed.

(** Python lists *)

Lemma norm_index_nonneg len i :
  0 ≤ i < Z.of_nat len → norm_index len i = Ok (Z.to_nat i).
Proof. intros. unfold norm_index. by rewrite decide_True. Qed.

Lemma norm_index_out len i :
  i < - Z.of_nat len ∨ Z.of_nat len ≤ i → norm_index len i = Raise IndexError.
Proof. intros. unfold norm_index. by rewrite !decide_False by lia. Qed.

Lemma norm_index_lt len i k : norm_index len i = Ok k → (k < len)%nat.
Proof.
  unfold norm_index. repeat case_decide; intros [= <-]; lia.
Qed.

Lemma seq_get_norm {A} (a : list A) i k d :
  norm_index (length a) i = Ok k → seq_get a i = Ok (nth k a d).
Proof.
  intros E. unfold seq_get. rewrite E.
  by rewrite (lookup_nth_lt a k d (norm_index_lt _ _ _ E)).
Qed.

Lemma seq_get_out {A} (a : list A) i :
  norm_index (length a) i = Raise IndexError → seq_get a i = Raise IndexError.
Proof. intros E. unfold seq_get. by rewrite E. Qed.

(** numpy arrays *)

Lemma np_norm_index_nonneg len i :
  0 ≤ i < Z.of_nat len → np_norm_index len i = Ok (Z.to_nat i).
Proof. intros. unfold np_norm_index. by rewrite decide_True. Qed.




(** On an array that numpy can hold, looking at the bounds first gives
    what numpy's order (conversion to a C [long] first) gives. *)
Lemma np_norm_index_conversion_first len i :
  Z.of_nat len ≤ 2 ^ 63 →
  np_norm_index len i
  = if decide (fits_long i)
    then (if decide (0 ≤ i < Z.of_nat len) then Ok (Z.to_nat i)
          else if decide (- Z.of_nat len ≤ i < 0)
               then Ok (Z.to_nat (i + Z.of_nat len))
               else Raise IndexError)
    else Raise OverflowError.
Proof.
  intros Hlen. unfold np_norm_index, fits_long.
  repeat case_decide; try done; lia.
Qed.

Lemma np_norm_index_lt len i k : np_norm_index len i = Ok k → (k < len)%nat.
Proof.
  unfold np_norm_index. repeat case_decide; intros [= <-]; lia.
Qed.

Lemma arr_get_norm {A} (a : list A) i k d :
  np_norm_index (length a) i = Ok k → arr_get a i = Ok (nth k a d).
Proof.
  intros E. unfold arr_get. rewrite E.
  by rewrite (lookup_nth_lt a k d (np_norm_index_lt _ _ _ E)).
Qed.

Lemma arr_get_raise {A} (a : list A) i e :
  np_norm_index (length a) i = Raise e → arr_get a i = Raise e.
Proof. intros E. unfold arr_get. by rewrite E. Qed.

Lemma arr_set_norm {A} (a : list A) i k v :
  np_norm_index (length a) i = Ok k → arr_set a i v = Ok (<[k := v]> a).
Proof. intros E. unfold arr_set. by rewrite E. Qed.

(** ** [flip_site] *)

Lemma flip_site_run w l c i k :
  heap w !! l = Some c →
  np_norm_index (length (config c)) i = Ok k →
  flip_site l i w = (Ok tt, update_obj w l (with_config c (flipped (config c) k))).
Proof.
  intros E Hk. unfold flip_site.
  rewrite (bind_Ok _ _ _ _ _ (get_config_run _ _ _ E)).
  unfold lift at 1. unfold bind at 1. rewrite (arr_get_norm _ _ _ 0 Hk).
  unfold flipped, toggle, spin.
  case_decide.
  - unfold bind, lift. rewrite (arr_set_norm _ _ _ _ Hk).
    by rewrite (set_config_run _ _ _ _ E).
  - unfold bind, lift. rewrite (arr_set_norm _ _ _ _ Hk).
    by rewrite (set_config_run _ _ _ _ E).
Qed.

Lemma flip_site_out w l c i e :
  heap w !! l = Some c →
  np_norm_index (length (config c)) i = Raise e →
  flip_site l i w = (Raise e, w).
Proof.
  intros E Hk. unfold flip_site.
  rewrite (bind_Ok _ _ _ _ _ (get_config_run _ _ _ E)).
  unfold lift, bind. by rewrite (arr_get_raise _ _ _ Hk).
Qed.

Lemma flipped_length s k : length (flipped s k) = length s.
Proof. apply length_insert. Qed.

Lemma spin_flipped_eq s k :
  (k < length s)%nat → spin (flipped s k) k = toggle (spin s k).
Proof.
  intros Hk. unfold flipped, spin at 1. apply nth_lookup_Some.
  by apply list_lookup_insert_eq.
Qed.

Lemma spin_flipped_ne s k j : k ≠ j → spin (flipped s k) j = spin s j.
Proof.
  intros Hne. unfold flipped, spin.
  destruct (decide (j < length s)%nat) as [Hj|Hj].
  - apply nth_lookup_Some. rewrite list_lookup_insert_ne by done.
    by apply lookup_nth_lt.
  - rewrite !nth_overflow; [done | lia | rewrite length_insert; lia].
Qed.

Lemma toggle_toggle x : x = 0 ∨ x = 1 → toggle (toggle x) = x.
Proof. intros [-> | ->]; reflexivity. Qed.

Lemma spin_ok s k : Forall (λ x, x = 0 ∨ x = 1) s → spin s k = 0 ∨ spin s k = 1.
Proof.
  intros Hs. unfold spin. destruct (decide (k < length s)%nat) as [Hk|Hk].
  - apply (Forall_lookup_1 (λ x, x = 0 ∨ x = 1) s k _ Hs). by apply lookup_nth_lt.
  - left. apply nth_overflow. lia.
Qed.

Lemma flipped_flipped s k :
  Forall (λ x, x = 0 ∨ x = 1) s → flipped (flipped s k) k = s.
Proof.
  intros Hs. destruct (decide (k < length s)%nat) as [Hk|Hk].
  - unfold flipped at 1. rewrite spin_flipped_eq by done.
    rewrite toggle_toggle by by apply spin_ok.
    unfold flipped. rewrite list_insert_insert_eq.
    apply list_insert_id. by apply lookup_nth_lt.
  - unfold flipped. rewrite !list_insert_ge; [done | lia | ].
    rewrite list_insert_ge; lia.
Qed.

Lemma flipped_ok s k :
  Forall (λ x, x = 0 ∨ x = 1) s → Forall (λ x, x = 0 ∨ x = 1) (flipped s k).
Proof.
  intros Hs. unfold flipped. apply Forall_insert; [done|].
  unfold toggle. case_decide; auto.
Qed.

(** ** Claims about indexing and flipping *)




(** The two failures on the three-site chain: index [3] is out of bounds,
    index [2^63] does not fit a C [long]. *)
Example getitem_index_errors :
  getitem 0%nat 3 world3 = (Raise IndexError, world3) ∧
  getitem 0%nat (2 ^ 63) world3 = (Raise OverflowError, world3) ∧
  flip_site 0%nat (2 ^ 63) world3 = (Raise OverflowError, world3).
Proof. repeat split; vm_compute; reflexivity. Qed.

(** C9.  Flipping a valid site twice in a row restores the configuration:
    both calls succeed and the world after the second call is the world
    before the first, so site [i] has its original spin and every other
    site is untouched. *)
Theorem flip_site_involution w l c i :
  heap w !! l = Some c →
  spins_ok c →
  0 ≤ i < N c →
  ∃ w1, flip_site l i w = (Ok tt, w1) ∧
        heap w1 !! l
          = Some (with_config c (flipped (config c) (Z.to_nat i))) ∧
        spin (flipped (config c) (Z.to_nat i)) (Z.to_nat i)
          = toggle (spin (config c) (Z.to_nat i)) ∧
        flip_site l i w1 = (Ok tt, w).
Proof.
  intros E [Hlen Hs] Hi.
  assert (Hk : np_norm_index (length (config c)) i = Ok (Z.to_nat i))
    by (apply np_norm_index_nonneg; lia).
  eexists. split; [by apply flip_site_run|].
  split; [apply update_obj_lookup|].
  split; [apply spin_flipped_eq; lia|].
  erewrite flip_site_run; [|apply update_obj_lookup|].
  2:{ simpl. rewrite flipped_length. exact Hk. }
  f_equal. rewrite update_obj_twice. simpl.
  rewrite flipped_flipped by done.
  apply update_obj_same. rewrite E. by destruct c.
Qed.

Lemma flip_site_involution_witness :
  ∃ w1, flip_site 0%nat 1 world3 = (Ok tt, w1) ∧
        heap w1 !! 0%nat
          = Some (with_config chain3 (flipped (config chain3) (Z.to_nat 1))) ∧
        spin (flipped (config chain3) (Z.to_nat 1)) (Z.to_nat 1)
          = toggle (spin (config chain3) (Z.to_nat 1)) ∧
        flip_site 0%nat 1 w1 = (Ok tt, world3).
Proof.
  apply (flip_site_involution world3 0%nat chain3 1).
  - reflexivity.
  - split; [reflexivity | simpl; repeat (constructor; [lia|]); constructor].
  - simpl. lia.
Defined.

(** ** Loops that only read the store *)

Lemma for_acc_read {A B} (l : list A) (body : B → A → M B) (f : B → A → B) w b :
  (∀ x b', x ∈ l → body b' x w = (Ok (f b' x), w)) →
  for_acc l body b w = (Ok (fold_left f l b), w).
Proof.
  revert b. induction l as [|x l IH]; intros b Hbody; [done|].
  simpl. rewrite (bind_Ok _ _ _ _ _ (Hbody x b (list_elem_of_here _ _))).
  apply IH. intros y b' Hy. apply Hbody. by apply list_elem_of_further.
Qed.

Lemma fold_left_sum_R {A} (g : A → R) (l : list A) (e : R) :
  fold_left (λ acc x, acc + g x)%R l e = (e + sum_R (g <$> l))%R.
Proof.
  revert e. induction l as [|x l IH]; intros e.
  - unfold sum_R. simpl. lra.
  - rewrite fmap_cons. simpl fold_left. rewrite IH.
    unfold sum_R. simpl foldr. lra.
Qed.

Lemma py_range_0 (n : nat) : py_range 0 (Z.of_nat n) = Z.of_nat <$> seq 0 n.
Proof.
  unfold py_range, seqZ. replace (Z.to_nat (Z.of_nat n - 0)) with n by lia.
  apply list_fmap_ext. intros; lia.
Qed.

Lemma elem_of_py_range_0 (n : nat) (x : Z) :
  x ∈ py_range 0 (Z.of_nat n) → ∃ k : nat, x = Z.of_nat k ∧ (k < n)%nat.
Proof.
  unfold py_range. rewrite elem_of_seqZ. intros Hx.
  exists (Z.to_nat x). lia.
Qed.

Lemma getitem_site w l c (k : nat) :
  heap w !! l = Some c →
  (k < length (config c))%nat →
  getitem l (Z.of_nat k) w = (Ok (spin (config c) k), w).
Proof.
  intros E Hk. rewrite (getitem_run _ _ _ _ E). f_equal.
  replace k with (Z.to_nat (Z.of_nat k)) at 2 by lia.
  apply arr_get_norm, np_norm_index_nonneg. lia.
Qed.

Lemma seq_get_site {A} (a : list A) (k : nat) d :
  (k < length a)%nat → seq_get a (Z.of_nat k) = Ok (nth k a d).
Proof.
  intros Hk. replace k with (Z.to_nat (Z.of_nat k)) at 2 by lia.
  apply seq_get_norm, norm_index_nonneg. lia.
Qed.

(** ** [expectation_value] *)

Section energy.
Context (ham : IsingHamiltonian1D) (w : world) (l : loc) (c : SpinConfig1D).
Context (Hl : heap w !! l = Some c).
Context (Hlen : Z.of_nat (length (config c)) = N c).
Context (Hs : Forall (λ x, x = 0 ∨ x = 1) (config c)).

Lemma bond_loop_run (m : nat) (e : R) :
  (m < length (config c))%nat →
  for_acc (py_range 0 (Z.of_nat m)) (λ e i,
    let! a := getitem l i in
    let! b := getitem l (i + 1) in
    if decide (a = b) then ret (e - J ham)%R else ret (e + J ham)%R) e w
  = (Ok (e + sum_R ((λ i, pair_energy (J ham) (spin (config c) i)
                            (spin (config c) (S i))) <$> seq 0 m))%R, w).
Proof.
  intros Hm.
  erewrite for_acc_read
    with (f := λ (e : R) (i : Z),
            (e + pair_energy (J ham) (spin (config c) (Z.to_nat i))
                   (spin (config c) (S (Z.to_nat i))))%R).
  - rewrite fold_left_sum_R, py_range_0, <- list_fmap_compose.
    do 4 f_equal. apply list_fmap_ext. intros i x _. simpl.
    by rewrite Nat2Z.id.
  - intros x e' [k [-> Hk]]%elem_of_py_range_0.
    rewrite (bind_Ok _ _ _ _ _ (getitem_site w l c k Hl ltac:(lia))).
    replace (Z.of_nat k + 1) with (Z.of_nat (S k)) by lia.
    rewrite (bind_Ok _ _ _ _ _ (getitem_site w l c (S k) Hl ltac:(lia))).
    rewrite Nat2Z.id. unfold pair_energy, ret.
    case_decide; f_equal; f_equal; lra.
Qed.

Lemma wrap_run (e : R) :
  0 < N c →
  (let! a := getitem l (N c - 1) in
   let! b := getitem l 0 in
   if decide (a = b) then ret (e - J ham)%R else ret (e + J ham)%R) w
  = (Ok (e + pair_energy (J ham) (spin (config c) (length (config c) - 1))
               (spin (config c) 0))%R, w).
Proof.
  intros Hpos.
  replace (N c - 1) with (Z.of_nat (length (config c) - 1)) by lia.
  rewrite (bind_Ok _ _ _ _ _
             (getitem_site w l c (length (config c) - 1) Hl ltac:(lia))).
  change 0 with (Z.of_nat 0).
  rewrite (bind_Ok _ _ _ _ _ (getitem_site w l c 0 Hl ltac:(lia))).
  unfold pair_energy, ret. case_decide; f_equal; f_equal; lra.
Qed.

Lemma field_loop_run (e : R) :
  N c ≤ Z.of_nat (length (h ham)) →
  for_acc (py_range 0 (N c)) (λ e i,
    let! s := getitem l i in
    if decide (s ≠ 0)
    then let! hi := lift (seq_get (h ham) i) in ret (e - mu ham * hi)%R
    else let! hi := lift (seq_get (h ham) i) in ret (e + mu ham * hi)%R) e w
  = (Ok (e + field_term ham (config c))%R, w).
Proof.
  intros Hh. rewrite <- Hlen in *.
  erewrite for_acc_read
    with (f := λ (e : R) (i : Z),
            (e + site_energy (mu ham) (nth (Z.to_nat i) (h ham) 0%R)
                   (spin (config c) (Z.to_nat i)))%R).
  - rewrite fold_left_sum_R, py_range_0, <- list_fmap_compose.
    unfold field_term. do 4 f_equal. apply list_fmap_ext. intros i x _.
    simpl. by rewrite Nat2Z.id.
  - intros x e' [k [-> Hk]]%elem_of_py_range_0.
    rewrite (bind_Ok _ _ _ _ _ (getitem_site w l c k Hl Hk)).
    rewrite Nat2Z.id. unfold site_energy.
    destruct (spin_ok (config c) k Hs) as [-> | ->]; simpl;
      unfold bind, lift, ret;
      rewrite (seq_get_site (h ham) k 0%R) by lia; f_equal; f_equal; lra.
Qed.

Lemma expectation_value_run :
  0 < N c →
  N c ≤ Z.of_nat (length (h ham)) →
  expectation_value ham l w = (Ok (energy ham (config c)), w).
Proof.
  intros Hpos Hh. unfold expectation_value.
  rewrite (bind_Ok _ _ _ _ _ (get_N_run _ _ _ Hl)).
  replace (N c - 1) with (Z.of_nat (length (config c) - 1)) at 1 by lia.
  rewrite (bind_Ok _ _ _ _ _
             (bond_loop_run (length (config c) - 1) 0%R ltac:(lia))).
  unfold energy, bond_term. destruct (ham_pbc ham).
  - rewrite (bind_Ok _ _ _ _ _ (wrap_run _ Hpos)).
    rewrite (field_loop_run _ Hh). f_equal. f_equal. lra.
  - unfold bind at 1, ret at 1.
    rewrite (field_loop_run _ Hh). f_equal. f_equal. lra.
Qed.
End energy.

Lemma chain3_ok : spins_ok chain3.
Proof. split; [reflexivity | simpl; repeat (constructor; [lia|]); constructor]. Qed.

(** The energy of the chain [0; 0; 1] under [ham3]: bonds [-1 + 1 + 1],
    field [2 + 2 - 2]. *)
Example energy_chain3 : energy ham3 (config chain3) = 3%R.
Proof.
  unfold energy, bond_term, field_term, sum_R, pair_energy, site_energy.
  simpl. lra.
Qed.

(** ** Claims about the Hamiltonian *)

(** C1.  For a configuration of [N >= 1] spins in [{0, 1}] and a field
    list covering every site, [expectation_value] returns, without
    touching the store, the bond term (one [-J] or [+J] for each pair
    [(i, i+1)], [i] from [0] to [N-2], and for the pair [(N-1, 0)] exactly
    when [pbc] is set) plus the field term (one [-mu*h[i]] or [+mu*h[i]]
    for each site); nothing is divided by [N]. *)
Theorem expectation_value_sum ham w l c :
  heap w !! l = Some c →
  spins_ok c →
  0 < N c →
  N c ≤ Z.of_nat (length (h ham)) →
  expectation_value ham l w
  = (Ok (sum_R ((λ i, if decide (spin (config c) i = spin (config c) (S i))
                      then (- J ham)%R else J ham)
                  <$> seq 0 (Z.to_nat (N c) - 1))
         + (if ham_pbc ham
            then if decide (spin (config c) (Z.to_nat (N c) - 1)
                            = spin (config c) 0)
                 then (- J ham)%R else J ham
            else 0)
         + sum_R ((λ i, if decide (spin (config c) i = 1%Z)
                        then (- (mu ham * nth i (h ham) 0))%R
                        else (mu ham * nth i (h ham) 0)%R)
                    <$> seq 0 (Z.to_nat (N c))))%R, w).
Proof.
  intros E [Hlen Hs] Hpos Hh.
  rewrite (expectation_value_run ham w l c E Hlen Hs Hpos Hh).
  unfold energy, bond_term, field_term.
  by replace (Z.to_nat (N c)) with (length (config c)) by lia.
Qed.

Lemma expectation_value_sum_witness :
  expectation_value ham3 0%nat world3 = (Ok 3%R, world3).
Proof.
  rewrite (expectation_value_sum ham3 world3 0%nat chain3
             eq_refl chain3_ok ltac:(simpl; lia) ltac:(simpl; lia)).
  f_equal. f_equal. unfold sum_R. simpl. lra.
Defined.

(** *** [delta_e_for_flip] *)

Lemma with_config_flipped_ok c k :
  spins_ok c → spins_ok (with_config c (flipped (config c) k)).
Proof.
  intros [Hlen Hs]. split; simpl.
  - by rewrite flipped_length.
  - by apply flipped_ok.
Qed.

Lemma expectation_value_energy ham w l c :
  heap w !! l = Some c →
  spins_ok c →
  0 < N c →
  N c ≤ Z.of_nat (length (h ham)) →
  expectation_value ham l w = (Ok (energy ham (config c)), w).
Proof. intros E [Hlen Hs]. by apply expectation_value_run. Qed.

Lemma deepcopy_run w l c :
  heap w !! l = Some c →
  deepcopy l w
  = (Ok (fresh_loc w), update_obj w (fresh_loc w) c).
Proof.
  intros E. unfold deepcopy. by rewrite (bind_Ok _ _ _ _ _ (load_run _ _ _ E)).
Qed.

Lemma fresh_loc_unused (w : world) : heap w !! fresh_loc w = None.
Proof. unfold fresh_loc. apply not_elem_of_dom, is_fresh. Qed.

Lemma fresh_loc_ne w l c : heap w !! l = Some c → fresh_loc w ≠ l.
Proof. intros E Hf. pose proof (fresh_loc_unused w) as Hu. congruence. Qed.

Lemma delta_e_for_flip_run ham w l c i :
  heap w !! l = Some c →
  spins_ok c →
  0 ≤ i < N c →
  N c ≤ Z.of_nat (length (h ham)) →
  delta_e_for_flip ham i l w
  = (Ok (fresh_loc w,
         (energy ham (flipped (config c) (Z.to_nat i))
          - energy ham (config c))%R),
     update_obj w (fresh_loc w)
       (with_config c (flipped (config c) (Z.to_nat i)))).
Proof.
  intros E Hok Hi Hh. unfold delta_e_for_flip.
  set (t := fresh_loc w).
  assert (Hne : t ≠ l) by apply (fresh_loc_ne w l c E).
  rewrite (bind_Ok _ _ _ _ _ (deepcopy_run _ _ _ E)). fold t.
  assert (Hk : np_norm_index (length (config c)) i = Ok (Z.to_nat i)).
  { apply np_norm_index_nonneg. destruct Hok. lia. }
  rewrite (bind_Ok _ _ _ _ _
             (flip_site_run _ t c i _ (update_obj_lookup w t c) Hk)).
  rewrite update_obj_twice.
  set (c' := with_config c (flipped (config c) (Z.to_nat i))).
  rewrite (bind_Ok _ _ _ _ _
             (expectation_value_energy ham _ t c' (update_obj_lookup w t c')
                (with_config_flipped_ok c _ Hok) ltac:(simpl; lia) Hh)).
  assert (El : heap (update_obj w t c') !! l = Some c)
    by (by rewrite update_obj_lookup_ne).
  rewrite (bind_Ok _ _ _ _ _
             (expectation_value_energy ham _ l c El Hok ltac:(lia) Hh)).
  reflexivity.
Qed.

(** C2.  For a valid site [i] of a well-formed configuration,
    [delta_e_for_flip] returns (next to a fresh trial copy) exactly the
    difference between the energy evaluated after flipping site [i] of the
    caller's configuration in place and the energy evaluated before; the
    call itself leaves the caller's object as it was, and the flipped
    spins live only in the trial copy. *)
Theorem delta_e_for_flip_consistent ham w l c i :
  heap w !! l = Some c →
  spins_ok c →
  0 ≤ i < N c →
  N c ≤ Z.of_nat (length (h ham)) →
  ∃ e0 e1 w1 trial w',
    expectation_value ham l w = (Ok e0, w) ∧
    flip_site l i w = (Ok tt, w1) ∧
    expectation_value ham l w1 = (Ok e1, w1) ∧
    delta_e_for_flip ham i l w = (Ok (trial, (e1 - e0)%R), w') ∧
    heap w' !! l = Some c ∧
    trial ≠ l ∧
    heap w' !! trial = heap w1 !! l ∧
    (∀ l', l' ≠ trial → heap w' !! l' = heap w !! l').
Proof.
  intros E Hok Hi Hh.
  assert (Hk : np_norm_index (length (config c)) i = Ok (Z.to_nat i)).
  { apply np_norm_index_nonneg. destruct Hok. lia. }
  pose proof (fresh_loc_ne w l c E) as Hne.
  eexists _, _, _, _, _. split; [|split; [|split; [|split]]].
  - apply expectation_value_energy; [done | done | lia | done].
  - by apply flip_site_run.
  - apply expectation_value_energy;
      [apply update_obj_lookup | by apply with_config_flipped_ok
      | simpl; lia | done].
  - by apply delta_e_for_flip_run.
  - split; [by rewrite update_obj_lookup_ne|].
    split; [done|].
    split.
    { etrans; [apply update_obj_lookup | symmetry; apply update_obj_lookup]. }
    intros l' Hl'. by rewrite update_obj_lookup_ne.
Qed.

Lemma delta_e_for_flip_consistent_witness :
  ∃ e0 e1 w1 trial w',
    expectation_value ham3 0%nat world3 = (Ok e0, world3) ∧
    flip_site 0%nat 1 world3 = (Ok tt, w1) ∧
    expectation_value ham3 0%nat w1 = (Ok e1, w1) ∧
    delta_e_for_flip ham3 1 0%nat world3 = (Ok (trial, (e1 - e0)%R), w') ∧
    heap w' !! 0%nat = Some chain3 ∧
    trial ≠ 0%nat ∧
    heap w' !! trial = heap w1 !! 0%nat ∧
    (∀ l', l' ≠ trial → heap w' !! l' = heap world3 !! l').
Proof.
  apply (delta_e_for_flip_consistent ham3 world3 0%nat chain3 1
           eq_refl chain3_ok ltac:(simpl; lia) ltac:(simpl; lia)).
Defined.

(** ** [random.sample] and [initialize] *)

Lemma randbelow_lt n r : (0 < n)%nat → ((randbelow n r).1 < n)%nat.
Proof.
  intros Hn. unfold randbelow. simpl.
  pose proof (N.mod_upper_bound (r 0%nat) (N.of_nat n)). lia.
Qed.

Lemma sample_pool_S pool k r :
  sample_pool pool (S k) r
  = let '(j, r1) := randbelow (length pool) r in
    match pool !! j with
    | None => ([], r1)
    | Some x =>
        let n1 := (length pool - 1)%nat in
        let pool' := take n1 (<[j := default x (pool !! n1)]> pool) in
        let '(rest, r2) := sample_pool pool' k r1 in
        (x :: rest, r2)
    end.
Proof. reflexivity. Qed.

(** One selection step removes exactly the drawn slot from the pool. *)
Lemma pool_step_lookup (pool : list Z) j x i y :
  pool !! j = Some x →
  take (length pool - 1)
    (<[j := default x (pool !! (length pool - 1)%nat)]> pool) !! i = Some y →
  (i < length pool - 1)%nat ∧
  pool !! (if decide (i = j) then (length pool - 1)%nat else i) = Some y.
Proof.
  intros Hx [Hy Hi]%lookup_take_Some. split; [done|].
  apply list_lookup_insert_Some in Hy as [(-> & Hy & Hlt) | (Hne & Hy)].
  - rewrite decide_True by done.
    destruct (lookup_lt_is_Some_2 pool (length pool - 1)) as [z Hz]; [lia|].
    rewrite Hz in Hy |- *. simpl in Hy. by subst.
  - by rewrite decide_False by done.
Qed.

Lemma sample_pool_spec k pool r :
  (k ≤ length pool)%nat →
  length (sample_pool pool k r).1 = k ∧
  (∀ x, x ∈ (sample_pool pool k r).1 → x ∈ pool) ∧
  (NoDup pool → NoDup (sample_pool pool k r).1).
Proof.
  revert pool r. induction k as [|k IH]; intros pool r Hk.
  - simpl. split; [done|]. split; [|intros; constructor].
    intros x Hx. by apply elem_of_nil in Hx.
  - rewrite sample_pool_S.
    pose proof (randbelow_lt (length pool) r ltac:(lia)) as Hj.
    destruct (randbelow (length pool) r) as [j r1]. simpl in Hj.
    destruct (lookup_lt_is_Some_2 pool j Hj) as [x Hx]. rewrite Hx.
    cbv zeta.
    set (pool' := take (length pool - 1)
                    (<[j:=default x (pool !! (length pool - 1)%nat)]> pool)).
    assert (Hlen' : length pool' = (length pool - 1)%nat).
    { unfold pool'. rewrite length_take, length_insert. lia. }
    assert (Hstep : ∀ i y, pool' !! i = Some y →
              (i < length pool - 1)%nat ∧
              pool !! (if decide (i = j) then (length pool - 1)%nat else i)
                = Some y)
      by (intros i y; by apply pool_step_lookup).
    destruct (IH pool' r1 ltac:(lia)) as (IHlen & IHin & IHnd).
    destruct (sample_pool pool' k r1) as [rest r2]. simpl in *.
    split; [by rewrite IHlen|]. split.
    + intros y [->|Hy]%elem_of_cons.
      * by eapply list_elem_of_lookup_2.
      * apply IHin, list_elem_of_lookup in Hy as [i Hi].
        apply Hstep in Hi as [_ Hi]. by eapply list_elem_of_lookup_2.
    + intros Hnd. pose proof (proj1 (NoDup_alt pool) Hnd) as Hinj.
      constructor.
      * intros Hin. apply IHin, list_elem_of_lookup in Hin as [i Hi].
        apply Hstep in Hi as [Hlt Hi].
        pose proof (Hinj _ _ _ Hi Hx) as Heq. case_decide; lia.
      * apply IHnd, NoDup_alt. intros i1 i2 y H1 H2.
        apply Hstep in H1 as [Hlt1 H1]. apply Hstep in H2 as [Hlt2 H2].
        pose proof (Hinj _ _ _ H1 H2) as Heq. repeat case_decide; lia.
Qed.

Lemma length_py_range a b : length (py_range a b) = Z.to_nat (b - a).
Proof. unfold py_range. apply length_seqZ. Qed.

Lemma with_config_id c : with_config c (config c) = c.
Proof. by destruct c. Qed.

Lemma set_up_length a picks : length (set_up a picks) = length a.
Proof.
  revert a. induction picks as [|i picks IH]; intros a; [done|].
  unfold set_up in *. simpl. by rewrite IH, length_insert.
Qed.

Lemma set_up_ok a picks :
  Forall (λ x, x = 0 ∨ x = 1) a → Forall (λ x, x = 0 ∨ x = 1) (set_up a picks).
Proof.
  revert a. induction picks as [|i picks IH]; intros a Ha; [done|].
  unfold set_up in *. simpl. apply IH. apply Forall_insert; auto.
Qed.

Lemma spin_set_up a picks k :
  Z.of_nat k ∉ picks →
  Forall (λ i, 0 ≤ i) picks →
  spin (set_up a picks) k = spin a k.
Proof.
  revert a. induction picks as [|i picks IH]; intros a Hk Hpos; [done|].
  apply not_elem_of_cons in Hk as [Hne Hk].
  apply Forall_cons in Hpos as [Hi Hpos].
  unfold set_up in *. simpl. rewrite IH by done.
  unfold spin. destruct (decide (k < length a)%nat).
  - apply nth_lookup_Some. rewrite list_lookup_insert_ne by lia.
    by apply lookup_nth_lt.
  - rewrite !nth_overflow; [done | lia | rewrite length_insert; lia].
Qed.

Lemma set_up_loop l picks w c :
  heap w !! l = Some c →
  Forall (λ i, 0 ≤ i < Z.of_nat (length (config c))) picks →
  for_each picks (λ i,
    let! a := get_config l in
    let! a' := lift (arr_set a i 1) in
    set_config l a') w
  = (Ok tt, update_obj w l (with_config c (set_up (config c) picks))).
Proof.
  revert w c. induction picks as [|i picks IH]; intros w c E Hp.
  - simpl. unfold ret. by rewrite with_config_id, update_obj_same.
  - apply Forall_cons in Hp as [Hi Hp]. simpl.
    erewrite bind_Ok; cycle 1.
    { rewrite (bind_Ok _ _ _ _ _ (get_config_run _ _ _ E)).
      unfold lift at 1, bind at 1.
      rewrite (arr_set_norm _ _ _ _ (np_norm_index_nonneg _ _ Hi)).
      apply (set_config_run _ _ _ _ E). }
    rewrite (IH _ _ (update_obj_lookup _ _ _)).
    + by rewrite update_obj_twice.
    + simpl. rewrite length_insert. done.
Qed.

Lemma sample_run w population k :
  0 ≤ k ≤ Z.of_nat (length population) →
  sample population k w
  = (Ok (sample_pool population (Z.to_nat k) (rand w)).1,
     mkWorld (heap w) (sample_pool population (Z.to_nat k) (rand w)).2).
Proof.
  intros Hk. unfold sample, random_sample. rewrite decide_True by done.
  by destruct (sample_pool population (Z.to_nat k) (rand w)).
Qed.

Lemma sample_fail w population k :
  ¬ (0 ≤ k ≤ Z.of_nat (length population)) →
  sample population k w = (Raise ValueError, w).
Proof.
  intros Hk. unfold sample, random_sample. rewrite decide_False by done.
  by rewrite world_eta.
Qed.

Lemma np_zeros_run n : 0 ≤ n → np_zeros n = Ok (all_down n).
Proof. intros. unfold np_zeros. by rewrite decide_False by lia. Qed.

Lemma initialize_run w l c Mup :
  heap w !! l = Some c →
  0 ≤ N c →
  0 ≤ Mup ≤ Z.of_nat (Z.to_nat (N c - 1)) →
  initialize l Mup w
  = (Ok tt,
     mkWorld
       (<[l := with_config c
                 (set_up (all_down (N c))
                    (sample_pool (py_range 0 (N c - 1)) (Z.to_nat Mup)
                       (rand w)).1)]> (heap w))
       (sample_pool (py_range 0 (N c - 1)) (Z.to_nat Mup) (rand w)).2).
Proof.
  intros E Hn HM. unfold initialize.
  rewrite (bind_Ok _ _ _ _ _ (get_N_run _ _ _ E)).
  unfold lift at 1, bind at 1. rewrite (np_zeros_run _ Hn).
  rewrite (bind_Ok _ _ _ _ _ (set_config_run _ _ _ _ E)).
  assert (HM' : 0 ≤ Mup ≤ Z.of_nat (length (py_range 0 (N c - 1)))).
  { rewrite length_py_range. lia. }
  rewrite (bind_Ok _ _ _ _ _ (sample_run _ _ _ HM')). simpl.
  destruct (sample_pool_spec (Z.to_nat Mup) (py_range 0 (N c - 1)) (rand w))
    as (_ & Hin & _); [rewrite length_py_range; lia|].
  set (picks := sample_pool (py_range 0 (N c - 1)) (Z.to_nat Mup) (rand w)) in *.
  erewrite (set_up_loop l picks.1 _ (with_config c (all_down (N c)))).
  - unfold update_obj. simpl. by rewrite insert_insert_eq.
  - apply lookup_insert_eq.
  - apply Forall_forall. intros i Hi%Hin.
    unfold py_range in Hi. apply elem_of_seqZ in Hi.
    simpl. unfold all_down. rewrite length_replicate. lia.
Qed.

Lemma initialize_fail w l c Mup :
  heap w !! l = Some c →
  0 ≤ N c →
  ¬ (0 ≤ Mup ≤ Z.of_nat (Z.to_nat (N c - 1))) →
  initialize l Mup w
  = (Raise ValueError, update_obj w l (with_config c (all_down (N c)))).
Proof.
  intros E Hn HM. unfold initialize.
  rewrite (bind_Ok _ _ _ _ _ (get_N_run _ _ _ E)).
  unfold lift at 1, bind at 1. rewrite (np_zeros_run _ Hn).
  rewrite (bind_Ok _ _ _ _ _ (set_config_run _ _ _ _ E)).
  apply bind_Raise. apply sample_fail. rewrite length_py_range. lia.
Qed.

Lemma spin_all_down n k : spin (all_down n) k = 0.
Proof.
  unfold spin, all_down. destruct (decide (k < Z.to_nat n)%nat).
  - apply nth_lookup_Some. by apply lookup_replicate_2.
  - apply nth_overflow. rewrite length_replicate. lia.
Qed.

(** With a generator that always yields zero, two draws from
    [range(0, 2)] pick sites [0] and [1]. *)
Example initialize_two_of_three :
  heap (initialize 0%nat 2 world3).2 !! 0%nat
  = Some (mkSpinConfig1D [1; 1; 0] 3 true).
Proof. vm_compute. reflexivity. Qed.

(** ** Claims about [initialize] *)

(** C10.  Whatever the random source yields, [initialize(M)] with
    [0 <= M <= N-1] succeeds and leaves the last site down: reading site
    [N-1] afterwards returns [0]. *)
Theorem initialize_last_site_down w l c Mup :
  heap w !! l = Some c →
  0 ≤ Mup ≤ N c - 1 →
  ∃ w', initialize l Mup w = (Ok tt, w') ∧
        getitem l (N c - 1) w' = (Ok 0, w').
Proof.
  intros E HM. eexists. split; [apply initialize_run; [done | lia | lia]|].
  set (picks := (sample_pool (py_range 0 (N c - 1)) (Z.to_nat Mup) (rand w)).1).
  erewrite getitem_run by apply lookup_insert_eq. f_equal. simpl.
  assert (Hlen : length (set_up (all_down (N c)) picks) = Z.to_nat (N c)).
  { rewrite set_up_length. unfold all_down. by rewrite length_replicate. }
  rewrite (arr_get_norm _ _ (Z.to_nat (N c - 1)) 0)
    by (apply np_norm_index_nonneg; lia).
  f_equal. fold (spin (set_up (all_down (N c)) picks) (Z.to_nat (N c - 1))).
  destruct (sample_pool_spec (Z.to_nat Mup) (py_range 0 (N c - 1)) (rand w))
    as (_ & Hin & _); [rewrite length_py_range; lia|]. fold picks in Hin.
  rewrite spin_set_up; [apply spin_all_down | |].
  - intros Hi%Hin. unfold py_range in Hi. apply elem_of_seqZ in Hi. lia.
  - apply Forall_forall. intros i Hi%Hin.
    unfold py_range in Hi. apply elem_of_seqZ in Hi. lia.
Qed.

Lemma initialize_last_site_down_witness :
  ∃ w', initialize 0%nat 2 world3 = (Ok tt, w') ∧
        getitem 0%nat (N chain3 - 1) w' = (Ok 0, w').
Proof.
  apply (initialize_last_site_down world3 0%nat chain3 2 eq_refl).
  simpl. lia.
Defined.

(** C5 (the code at the failing input).  On a chain of [N >= 1] sites
    [initialize(N)] does not succeed: the configuration is reset to all
    down and [random.sample], asked for [N] indices out of the [N-1] in
    [range(0, N-1)], raises [ValueError]. *)
Theorem initialize_full_magnetization_raises w l c :
  heap w !! l = Some c →
  0 < N c →
  initialize l (N c) w
  = (Raise ValueError, update_obj w l (with_config c (all_down (N c)))).
Proof. intros E Hn. apply initialize_fail; [done | lia | lia]. Qed.

Lemma initialize_full_magnetization_raises_witness :
  initialize 0%nat 3 world3
  = (Raise ValueError, update_obj world3 0%nat (with_config chain3 [0; 0; 0])).
Proof.
  apply (initialize_full_magnetization_raises world3 0%nat chain3 eq_refl).
  simpl. lia.
Defined.

(** ** Loops over the sites of a configuration *)

Lemma fold_sites_aux {B} (g : B → Z → B) (p s : list Z) (a : B) :
  fold_left (λ acc i, g acc (spin (p ++ s) (Z.to_nat i)))
    (Z.of_nat <$> seq (length p) (length s)) a
  = fold_left g s a.
Proof.
  revert p a. induction s as [|x s IH]; intros p a; [done|].
  simpl. rewrite Nat2Z.id.
  replace (spin (p ++ x :: s) (length p)) with x.
  2:{ unfold spin. by rewrite nth_middle. }
  specialize (IH (p ++ [x]) (g a x)).
  rewrite <- app_assoc, length_app in IH. simpl in IH.
  by replace (length p + 1)%nat with (S (length p)) in IH by lia.
Qed.

Lemma for_acc_sites {B} (body : B → Z → M B) (g : B → Z → B) w l c (a : B) :
  heap w !! l = Some c →
  Z.of_nat (length (config c)) = N c →
  (∀ acc k, (k < length (config c))%nat →
            body acc (Z.of_nat k) w = (Ok (g acc (spin (config c) k)), w)) →
  for_acc (py_range 0 (N c)) body a w = (Ok (fold_left g (config c) a), w).
Proof.
  intros E Hlen Hbody. rewrite <- Hlen.
  erewrite for_acc_read
    with (f := λ acc i, g acc (spin (config c) (Z.to_nat i))).
  - rewrite py_range_0. do 2 f_equal.
    apply (fold_sites_aux g [] (config c) a).
  - intros x acc [k [-> Hk]]%elem_of_py_range_0.
    rewrite Nat2Z.id. by apply Hbody.
Qed.

(** ** The integer encoding *)

Lemma binary_repr_length width v : length (binary_repr width v) = width.
Proof. unfold binary_repr. by rewrite length_fmap, length_seq. Qed.

Lemma binary_repr_ok width v : Forall (λ x, x = 0 ∨ x = 1) (binary_repr width v).
Proof.
  unfold binary_repr. apply Forall_fmap, Forall_forall. intros i _. simpl.
  destruct (Z.testbit v _); auto.
Qed.

(** The expansion, least significant digit last. *)
Lemma binary_repr_snoc width v :
  binary_repr (S width) v = binary_repr width (v `div` 2) ++ [v `mod` 2].
Proof.
  unfold binary_repr. rewrite seq_S, fmap_app. f_equal.
  - apply list_fmap_ext. intros i k [-> Hk]%lookup_seq. simpl.
    rewrite Z.div2_bits by lia.
    by replace (Z.of_nat (width - 0 - i)) with (Z.succ (Z.of_nat (width - 1 - i)))
      by lia.
  - simpl. replace (width - 0 - width)%nat with 0%nat by lia.
    change (Z.of_nat 0) with 0. rewrite <- Z.bit0_mod.
    by destruct (Z.testbit v 0).
Qed.

(** The expansion, most significant digit first. *)
Lemma binary_repr_cons width v :
  binary_repr (S width) v
  = (if Z.testbit v (Z.of_nat width) then 1 else 0) :: binary_repr width v.
Proof.
  unfold binary_repr. simpl. f_equal.
  - by rewrite !Nat.sub_0_r.
  - rewrite <- fmap_S_seq, <- list_fmap_compose.
    apply list_fmap_ext. intros i k _. simpl.
    by replace (width - 0 - S k)%nat with (width - 1 - k)%nat by lia.
Qed.

Lemma int_of_spins_snoc s b : int_of_spins (s ++ [b]) = 2 * int_of_spins s + b.
Proof. unfold int_of_spins. by rewrite fold_left_app. Qed.

Lemma int_of_binary_repr width v :
  0 ≤ v < 2 ^ Z.of_nat width → int_of_spins (binary_repr width v) = v.
Proof.
  revert v. induction width as [|width IH]; intros v Hv.
  - simpl in Hv. unfold binary_repr, int_of_spins. simpl. lia.
  - rewrite binary_repr_snoc, int_of_spins_snoc.
    rewrite Nat2Z.inj_succ, Z.pow_succ_r in Hv by lia.
    rewrite IH; [|split].
    + pose proof (Z.div_mod v 2). lia.
    + apply Z.div_pos; lia.
    + apply Z.div_lt_upper_bound; lia.
Qed.

(** The integer used by the test suite, on ten sites. *)
Example binary_repr_44 : binary_repr 10 44 = [0; 0; 0; 0; 1; 0; 1; 1; 0; 0].
Proof. reflexivity. Qed.

Example int_of_spins_44 : int_of_spins [0; 0; 0; 0; 1; 0; 1; 1; 0; 0] = 44.
Proof. reflexivity. Qed.

Lemma set_int_config_run w l c v :
  heap w !! l = Some c →
  0 ≤ v < 2 ^ N c →
  set_int_config l v w
  = (Ok tt, update_obj w l (with_config c (binary_repr (Z.to_nat (N c)) v))).
Proof.
  intros E Hv. unfold set_int_config.
  rewrite (bind_Ok _ _ _ _ _ (get_N_run _ _ _ E)).
  rewrite decide_True by done. by apply set_config_run.
Qed.

Lemma set_int_config_fail w l c v :
  heap w !! l = Some c →
  ¬ (0 ≤ v < 2 ^ N c) →
  set_int_config l v w = (Raise EncodingRangeError, w).
Proof.
  intros E Hv. unfold set_int_config.
  rewrite (bind_Ok _ _ _ _ _ (get_N_run _ _ _ E)).
  by rewrite decide_False by done.
Qed.

Lemma get_int_config_run w l c :
  heap w !! l = Some c →
  Z.of_nat (length (config c)) = N c →
  get_int_config l w = (Ok (int_of_spins (config c)), w).
Proof.
  intros E Hlen. unfold get_int_config.
  rewrite (bind_Ok _ _ _ _ _ (get_N_run _ _ _ E)).
  apply (for_acc_sites _ (λ acc x, 2 * acc + x) w l c 0 E Hlen).
  intros acc k Hk. by rewrite (bind_Ok _ _ _ _ _ (getitem_site w l c k E Hk)).
Qed.

(** C6.  On a chain of [N] sites, [set_int_config(v)] with
    [0 <= v < 2^N] succeeds, and reading all [N] sites back and
    rebuilding the integer under the same digit order yields [v]; for
    every other [v] it fails with [EncodingRangeError] and changes
    nothing. *)
Theorem set_int_config_round_trip w l c v :
  heap w !! l = Some c →
  0 ≤ N c →
  (0 ≤ v < 2 ^ N c →
     ∃ w', set_int_config l v w = (Ok tt, w') ∧
           get_int_config l w' = (Ok v, w')) ∧
  (¬ (0 ≤ v < 2 ^ N c) →
     set_int_config l v w = (Raise EncodingRangeError, w)).
Proof.
  intros E Hn. split; [|by apply set_int_config_fail].
  intros Hv. eexists. split; [by apply set_int_config_run|].
  erewrite get_int_config_run; [|apply update_obj_lookup|].
  - simpl. rewrite int_of_binary_repr; [done|]. by rewrite Z2Nat.id.
  - simpl. rewrite binary_repr_length. lia.
Qed.

Lemma set_int_config_round_trip_witness :
  ∃ w', set_int_config 0%nat 5 world3 = (Ok tt, w') ∧
        get_int_config 0%nat w' = (Ok 5, w').
Proof.
  apply (proj1 (set_int_config_round_trip world3 0%nat chain3 5 eq_refl
                  ltac:(simpl; lia))).
  simpl. lia.
Defined.

(** ** The data-model invariant *)

Lemma np_norm_index_cases len i :
  (∃ k, np_norm_index len i = Ok k) ∨ (∃ e, np_norm_index len i = Raise e).
Proof. unfold np_norm_index. repeat case_decide; eauto. Qed.

Lemma all_down_ok n : Forall (λ x, x = 0 ∨ x = 1) (all_down n).
Proof. unfold all_down. apply Forall_replicate. auto. Qed.

Lemma all_down_length n : 0 ≤ n → Z.of_nat (length (all_down n)) = n.
Proof. intros. unfold all_down. rewrite length_replicate. lia. Qed.

Lemma SpinConfig1D_new_run w n b :
  0 ≤ n →
  SpinConfig1D_new n b w
  = (Ok (fresh_loc w),
     update_obj w (fresh_loc w) (mkSpinConfig1D (all_down n) n b)).
Proof.
  intros Hn. unfold SpinConfig1D_new, lift, bind.
  by rewrite (np_zeros_run _ Hn).
Qed.

(** C8.  In whatever store it runs, an empty one included, a construction
    that returns yields an object that satisfies the invariant (array of
    length [N], every entry [0] or [1]); and whenever the object behind a
    reference satisfies it, it still does, with the same [N], after
    [initialize], [set_int_config] and [flip_site], whether the call
    returns or raises. *)
Theorem spins_invariant_preserved w0 n b w l c Mup v i :
  (∀ l0 w', SpinConfig1D_new n b w0 = (Ok l0, w') →
     ∃ c', heap w' !! l0 = Some c' ∧ spins_ok c' ∧ N c' = n) ∧
  (heap w !! l = Some c →
   spins_ok c →
     (∃ r w' c', initialize l Mup w = (r, w') ∧
                 heap w' !! l = Some c' ∧ spins_ok c' ∧ N c' = N c) ∧
     (∃ r w' c', set_int_config l v w = (r, w') ∧
                 heap w' !! l = Some c' ∧ spins_ok c' ∧ N c' = N c) ∧
     (∃ r w' c', flip_site l i w = (r, w') ∧
                 heap w' !! l = Some c' ∧ spins_ok c' ∧ N c' = N c)).
Proof.
  split.
  - intros l0 w' Hnew. destruct (decide (n < 0)) as [Hn|Hn].
    + unfold SpinConfig1D_new, lift, bind, np_zeros in Hnew.
      rewrite decide_True in Hnew by done. discriminate.
    + rewrite SpinConfig1D_new_run in Hnew by lia.
      injection Hnew as <- <-. eexists.
      split; [apply update_obj_lookup|]. split; [|done].
      split; simpl; [apply all_down_length; lia | apply all_down_ok].
  - intros E Hok. pose proof Hok as [Hlen Hs]. split; [|split].
    + destruct (decide (0 ≤ Mup ≤ Z.of_nat (Z.to_nat (N c - 1)))) as [HM|HM].
      * eexists _, _, _. split; [apply initialize_run; [done | lia | done]|].
        split; [apply lookup_insert_eq|]. split; [|done].
        split; simpl.
        -- rewrite set_up_length. apply all_down_length. lia.
        -- apply set_up_ok, all_down_ok.
      * eexists _, _, _. split; [apply initialize_fail; [done | lia | done]|].
        split; [apply update_obj_lookup|]. split; [|done].
        split; simpl; [apply all_down_length; lia | apply all_down_ok].
    + destruct (decide (0 ≤ v < 2 ^ N c)) as [Hv|Hv].
      * eexists _, _, _. split; [by apply set_int_config_run|].
        split; [apply update_obj_lookup|]. split; [|done].
        split; simpl; [rewrite binary_repr_length; lia | apply binary_repr_ok].
      * eexists _, _, _. split; [by eapply set_int_config_fail|]. done.
    + destruct (np_norm_index_cases (length (config c)) i) as [[k Hk]|[e Hk]].
      * eexists _, _, _. split; [by apply flip_site_run|].
        split; [apply update_obj_lookup|]. split; [|done].
        by apply with_config_flipped_ok.
      * eexists _, _, _. split; [by eapply flip_site_out|]. done.
Qed.

Lemma spins_invariant_preserved_witness :
  (∃ c', heap (update_obj world_empty (fresh_loc world_empty)
                 (mkSpinConfig1D (all_down 4) 4 true))
           !! fresh_loc world_empty = Some c' ∧
         spins_ok c' ∧ N c' = 4) ∧
  (∃ r w' c', initialize 0%nat 2 world3 = (r, w') ∧
              heap w' !! 0%nat = Some c' ∧ spins_ok c' ∧ N c' = N chain3) ∧
  (∃ r w' c', set_int_config 0%nat 5 world3 = (r, w') ∧
              heap w' !! 0%nat = Some c' ∧ spins_ok c' ∧ N c' = N chain3) ∧
  (∃ r w' c', flip_site 0%nat 1 world3 = (r, w') ∧
              heap w' !! 0%nat = Some c' ∧ spins_ok c' ∧ N c' = N chain3).
Proof.
  split.
  - apply (proj1 (spins_invariant_preserved world_empty 4 true
                    world3 0%nat chain3 2 5 1)).
    apply SpinConfig1D_new_run. lia.
  - apply (proj2 (spins_invariant_preserved world_empty 4 true
                    world3 0%nat chain3 2 5 1) eq_refl chain3_ok).
Defined.

(** The first construction in an empty store returns reference [0]. *)
Example first_construction :
  SpinConfig1D_new 4 true world_empty
  = (Ok 0%nat, update_obj world_empty 0%nat (mkSpinConfig1D [0; 0; 0; 0] 4 true)).
Proof. vm_compute. reflexivity. Qed.

(** ** The Metropolis sweep *)

Lemma uniform_of_range x : (0 <= uniform_of x < 1)%R.
Proof.
  unfold uniform_of, random_resolution.
  pose proof (Z.mod_pos_bound (Z.of_N x) (2 ^ 53) ltac:(lia)) as [Hlo Hhi].
  assert (Hpos : (0 < IZR (2 ^ 53))%R) by (apply IZR_lt; lia).
  split.
  - apply Rmult_le_pos; [by apply IZR_le|].
    left. by apply Rinv_0_lt_compat.
  - apply (Rmult_lt_reg_r (IZR (2 ^ 53))); [done|].
    unfold Rdiv. rewrite Rmult_assoc, Rinv_l, Rmult_1_r, Rmult_1_l by lra.
    by apply IZR_lt.
Qed.

Lemma random_random_run w :
  random_random w
  = (Ok (uniform_of (rand w 0%nat)), mkWorld (heap w) (rng_drop 1 (rand w))).
Proof. reflexivity. Qed.

Lemma metropolis_site_run ham T w l c (i : nat) :
  heap w !! l = Some c →
  spins_ok c →
  N c ≤ Z.of_nat (length (h ham)) →
  (i < length (config c))%nat →
  ∃ w',
    metropolis_site ham T l (Z.of_nat i) w = (Ok tt, w') ∧
    heap w' !! l
    = Some (with_config c
              (if decide (accept T
                            (energy ham (flipped (config c) i)
                             - energy ham (config c))%R
                            (uniform_of (rand w 0%nat)))
               then flipped (config c) i else config c)) ∧
    rand w' = rng_drop 1 (rand w) ∧
    (∀ l' x, heap w !! l' = Some x → l' ≠ l → heap w' !! l' = Some x).
Proof.
  intros E Hok Hh Hi. pose proof Hok as [Hlen Hs].
  pose proof (fresh_loc_ne w l c E) as Hne.
  assert (Hfresh : ∀ l' x, heap w !! l' = Some x → fresh_loc w ≠ l').
  { intros l' x Hx. by apply (fresh_loc_ne w l' x). }
  unfold metropolis_site.
  rewrite (bind_Ok _ _ _ _ _
             (delta_e_for_flip_run ham w l c (Z.of_nat i) E Hok ltac:(lia) Hh)).
  rewrite Nat2Z.id.
  rewrite (bind_Ok _ _ _ _ _ (random_random_run _)).
  change (rand (update_obj w (fresh_loc w)
                  (with_config c (flipped (config c) i)))) with (rand w).
  set (w1 := mkWorld _ _).
  assert (E1 : heap w1 !! l = Some c) by (by apply lookup_insert_Some; right).
  case_decide.
  - eexists. split.
    { apply (flip_site_run w1 l c (Z.of_nat i) i E1).
      rewrite np_norm_index_nonneg by lia. by rewrite Nat2Z.id. }
    split; [apply update_obj_lookup|]. split; [done|].
    intros l' x Hx Hl'. rewrite update_obj_lookup_ne by done.
    apply lookup_insert_Some. right. split; [by eapply Hfresh | done].
  - eexists. split; [done|].
    split; [by rewrite with_config_id|]. split; [done|].
    intros l' x Hx Hl'.
    apply lookup_insert_Some. right. split; [by eapply Hfresh | done].
Qed.

Lemma sweep_loop ham T l sites w c :
  heap w !! l = Some c →
  spins_ok c →
  N c ≤ Z.of_nat (length (h ham)) →
  Forall (λ i, (i < length (config c))%nat) sites →
  ∃ w',
    for_each (Z.of_nat <$> sites) (metropolis_site ham T l) w = (Ok tt, w') ∧
    heap w' !! l
    = Some (with_config c (sweep_spins ham T sites (rand w) (config c))) ∧
    (∀ n, rand w' n = rand w (length sites + n)%nat) ∧
    (∀ l' x, heap w !! l' = Some x → l' ≠ l → heap w' !! l' = Some x).
Proof.
  revert w c. induction sites as [|i sites IH]; intros w c E Hok Hh Hsites.
  - exists w. split; [done|]. split; [by rewrite with_config_id|]. done.
  - apply Forall_cons in Hsites as [Hi Hsites].
    destruct (metropolis_site_run ham T w l c i E Hok Hh Hi)
      as (w1 & Hrun & E1 & Hr1 & Hframe1).
    set (s1 := if decide (accept T
                     (energy ham (flipped (config c) i)
                      - energy ham (config c))%R
                     (uniform_of (rand w 0%nat)))
               then flipped (config c) i else config c) in *.
    assert (Hlen1 : length s1 = length (config c)).
    { unfold s1. case_decide; [apply flipped_length | done]. }
    assert (Hok1 : spins_ok (with_config c s1)).
    { unfold s1. case_decide; [by apply with_config_flipped_ok|].
      by rewrite with_config_id. }
    destruct (IH w1 (with_config c s1) E1 Hok1 Hh) as (w' & Hloop & E' & Hr' & Hframe').
    { simpl. by rewrite Hlen1. }
    exists w'. split; [|split; [|split]].
    + simpl. by rewrite (bind_Ok _ _ _ _ _ Hrun).
    + rewrite E'. simpl. by rewrite Hr1.
    + intros n. rewrite Hr', Hr1. unfold rng_drop. f_equal.
    + intros l' x Hx Hl'. apply Hframe'; [|done]. by apply Hframe1.
Qed.

(** C4.  [metropolis_sweep] at [T <= 0] fails with
    [InvalidTemperatureError] and changes nothing.  At [T > 0], on a
    well-formed configuration, it succeeds; the caller's spins are then
    those obtained by visiting the sites [0, 1, ..., N-1] once each in that
    order, drawing at each site one [u] in [[0, 1)] (the next output of the
    random source) and flipping the site exactly when [dE <= 0] or
    [u < exp(-dE/T)], [dE] being the energy change of that flip; exactly
    [N] draws are consumed and no other object of the caller is touched. *)
Theorem metropolis_sweep_spec ham w l c T :
  heap w !! l = Some c →
  spins_ok c →
  N c ≤ Z.of_nat (length (h ham)) →
  ((T <= 0)%R →
     metropolis_sweep ham l T w = (Raise InvalidTemperatureError, w)) ∧
  ((0 < T)%R →
     ∃ w',
       metropolis_sweep ham l T w = (Ok tt, w') ∧
       heap w' !! l
       = Some (with_config c
                 (sweep_spins ham T (seq 0 (Z.to_nat (N c))) (rand w)
                    (config c))) ∧
       (∀ n, rand w' n = rand w (Z.to_nat (N c) + n)%nat) ∧
       (∀ l' x, heap w !! l' = Some x → l' ≠ l → heap w' !! l' = Some x)) ∧
  (∀ x, (0 <= uniform_of x < 1)%R).
Proof.
  intros E Hok Hh. pose proof Hok as [Hlen Hs].
  split; [|split; [|apply uniform_of_range]].
  - intros HT. unfold metropolis_sweep. by rewrite decide_True.
  - intros HT. unfold metropolis_sweep. rewrite decide_False by lra.
    rewrite (bind_Ok _ _ _ _ _ (get_N_run _ _ _ E)).
    destruct (sweep_loop ham T l (seq 0 (Z.to_nat (N c))) w c E Hok Hh)
      as (w' & Hloop & E' & Hr' & Hframe').
    { apply Forall_forall. intros i Hi%elem_of_seq. lia. }
    exists w'. split; [|split; [done|split; [|done]]].
    + rewrite <- Hloop. f_equal.
      rewrite <- (Z2Nat.id (N c)) at 1 by lia. apply py_range_0.
    + intros n. rewrite Hr'. by rewrite length_seq.
Qed.

Lemma metropolis_sweep_spec_witness :
  ∃ w',
    metropolis_sweep ham3 0%nat 1%R world3 = (Ok tt, w') ∧
    heap w' !! 0%nat
    = Some (with_config chain3
              (sweep_spins ham3 1%R (seq 0 (Z.to_nat (N chain3)))
                 (rand world3) (config chain3))) ∧
    (∀ n, rand w' n = rand world3 (Z.to_nat (N chain3) + n)%nat) ∧
    (∀ l' x, heap world3 !! l' = Some x → l' ≠ 0%nat →
             heap w' !! l' = Some x).
Proof.
  apply (proj1 (proj2 (metropolis_sweep_spec ham3 world3 0%nat chain3 1%R
                         eq_refl chain3_ok ltac:(simpl; lia)))).
  lra.
Defined.

(** ** The microstates of a chain *)

Example microstates_2 : microstates 2 = [[0; 0]; [0; 1]; [1; 0]; [1; 1]].
Proof. reflexivity. Qed.

Lemma microstates_length n : Z.of_nat (length (microstates n)) = 2 ^ Z.of_nat n.
Proof.
  induction n as [|n IH]; [done|].
  simpl microstates. rewrite length_app, !length_fmap.
  rewrite Nat2Z.inj_succ, Z.pow_succ_r by lia. lia.
Qed.

Lemma elem_of_microstates n s :
  s ∈ microstates n ↔ length s = n ∧ Forall (λ x, x = 0 ∨ x = 1) s.
Proof.
  revert s. induction n as [|n IH]; intros s; simpl.
  - rewrite list_elem_of_singleton. split.
    + intros ->. by split.
    + intros [Hl _]. by destruct s.
  - rewrite elem_of_app, !list_elem_of_fmap. split.
    + intros [(t & -> & Ht) | (t & -> & Ht)]; apply IH in Ht as [Hl Hs];
        simpl; (split; [by rewrite Hl | constructor; auto]).
    + intros [Hl Hs]. destruct s as [|x s]; [done|]. simpl in Hl.
      apply Forall_cons in Hs as [Hx Hs].
      assert (Ht : s ∈ microstates n) by (apply IH; split; [lia | done]).
      destruct Hx as [-> | ->]; [left | right]; by exists s.
Qed.

Lemma microstates_NoDup n : NoDup (microstates n).
Proof.
  induction n as [|n IH]; simpl.
  - apply NoDup_singleton.
  - apply NoDup_app. split; [|split].
    + by apply (NoDup_fmap_2 _).
    + intros s (t & -> & _)%list_elem_of_fmap (t' & Heq & _)%list_elem_of_fmap.
      discriminate.
    + by apply (NoDup_fmap_2 _).
Qed.

Lemma binary_repr_mod width v :
  binary_repr width (v `mod` 2 ^ Z.of_nat width) = binary_repr width v.
Proof.
  unfold binary_repr. apply list_fmap_ext. intros i k [-> Hk]%lookup_seq.
  simpl. rewrite Z.mod_pow2_bits_low by lia. done.
Qed.

Lemma binary_repr_low width v :
  0 ≤ v < 2 ^ Z.of_nat width →
  binary_repr (S width) v = 0 :: binary_repr width v.
Proof.
  intros Hv. rewrite binary_repr_cons.
  rewrite <- (Z.mod_small v (2 ^ Z.of_nat width)) at 1 by done.
  by rewrite Z.mod_pow2_bits_high by lia.
Qed.

Lemma binary_repr_high width v :
  0 ≤ v < 2 ^ Z.of_nat width →
  binary_repr (S width) (2 ^ Z.of_nat width + v) = 1 :: binary_repr width v.
Proof.
  intros Hv. rewrite binary_repr_cons.
  assert (Hbit : Z.testbit (2 ^ Z.of_nat width + v) (Z.of_nat width) = true).
  { apply Z.testbit_true; [lia|].
    replace (2 ^ Z.of_nat width + v) with (v + 1 * 2 ^ Z.of_nat width) by lia.
    rewrite Z.div_add, Z.div_small by lia. done. }
  rewrite Hbit. f_equal.
  rewrite <- (binary_repr_mod width (2 ^ Z.of_nat width + v)).
  replace (2 ^ Z.of_nat width + v) with (v + 1 * 2 ^ Z.of_nat width) by lia.
  by rewrite Z.mod_add, binary_repr_mod by lia.
Qed.

(** The integers [0 .. 2^n - 1] decode, in order, to the microstates. *)
Lemma microstates_decode n :
  binary_repr n <$> seqZ 0 (2 ^ Z.of_nat n) = microstates n.
Proof.
  induction n as [|n IH]; [done|].
  simpl microstates. rewrite <- IH, <- !list_fmap_compose.
  rewrite Nat2Z.inj_succ, Z.pow_succ_r by lia.
  replace (2 * 2 ^ Z.of_nat n) with (2 ^ Z.of_nat n + 2 ^ Z.of_nat n) by lia.
  rewrite seqZ_app, fmap_app by lia. f_equal.
  - apply list_fmap_ext. intros i v [-> Hi]%lookup_seqZ. simpl.
    apply binary_repr_low. lia.
  - rewrite Z.add_0_l.
    rewrite <- (Z.add_0_r (2 ^ Z.of_nat n)) at 1.
    rewrite <- fmap_add_seqZ, <- list_fmap_compose.
    apply list_fmap_ext. intros i v [-> Hi]%lookup_seqZ. simpl.
    apply binary_repr_high. lia.
Qed.

(** ** Exact averages *)

Lemma fold_magnetization s a :
  Forall (λ x, x = 0 ∨ x = 1) s →
  fold_left (λ (m : R) (x : Z), if decide (x ≠ 0) then (m + 1)%R else (m - 1)%R) s a
  = (a + magnetization_of s)%R.
Proof.
  revert a. induction s as [|x s IH]; intros a Hs.
  - unfold magnetization_of, sum_R. simpl. lra.
  - apply Forall_cons in Hs as [Hx Hs]. simpl fold_left. rewrite IH by done.
    unfold magnetization_of, sum_R. rewrite fmap_cons. simpl foldr.
    destruct Hx as [-> | ->]; simpl; lra.
Qed.

Lemma magnetization_run w l c :
  heap w !! l = Some c →
  spins_ok c →
  magnetization l w = (Ok (magnetization_of (config c)), w).
Proof.
  intros E [Hlen Hs]. unfold magnetization.
  rewrite (bind_Ok _ _ _ _ _ (get_N_run _ _ _ E)).
  erewrite (for_acc_sites _
              (λ (m : R) (x : Z), if decide (x ≠ 0) then (m + 1)%R else (m - 1)%R)
              w l c 0%R E Hlen).
  - rewrite fold_magnetization by done. do 2 f_equal. lra.
  - intros acc k Hk.
    rewrite (bind_Ok _ _ _ _ _ (getitem_site w l c k E Hk)).
    by case_decide.
Qed.

Lemma enumeration_loop ham T conf (n : nat) vs w c acc :
  heap w !! conf = Some c →
  N c = Z.of_nat n →
  (0 < n)%nat →
  Z.of_nat n ≤ Z.of_nat (length (h ham)) →
  Forall (λ v, 0 ≤ v < 2 ^ Z.of_nat n) vs →
  ∃ w',
    for_acc vs (λ acc v,
        let! _ := set_int_config conf v in
        let! Es := expectation_value ham conf in
        let! Ms := magnetization conf in
        let w := exp (- Es / T) in
        ret (mkSums (sum_Z acc + w) (sum_E acc + w * Es)
                    (sum_EE acc + w * (Es * Es)) (sum_M acc + w * Ms)
                    (sum_MM acc + w * (Ms * Ms)))%R) acc w
    = (Ok (fold_left (λ acc v, add_microstate ham T acc (binary_repr n v))
             vs acc), w').
Proof.
  revert w c acc. induction vs as [|v vs IH]; intros w c acc E HN Hn Hh Hvs.
  - by exists w.
  - apply Forall_cons in Hvs as [Hv Hvs].
    set (c1 := with_config c (binary_repr n v)).
    assert (Hok1 : spins_ok c1).
    { split; simpl; [rewrite binary_repr_length; lia | apply binary_repr_ok]. }
    destruct (IH (update_obj w conf c1) c1 (add_microstate ham T acc (binary_repr n v))
                (update_obj_lookup _ _ _) HN Hn Hh Hvs) as [w' Hloop].
    exists w'. simpl for_acc. simpl fold_left. rewrite <- Hloop.
    apply bind_Ok.
    erewrite bind_Ok; cycle 1.
    { rewrite (set_int_config_run w conf c v E) by (rewrite HN; done).
      rewrite HN, Nat2Z.id. done. }
    fold c1.
    rewrite (bind_Ok _ _ _ _ _
               (expectation_value_energy ham _ conf c1 (update_obj_lookup _ _ _)
                  Hok1 ltac:(simpl; lia) ltac:(simpl; lia))).
    rewrite (bind_Ok _ _ _ _ _
               (magnetization_run _ conf c1 (update_obj_lookup _ _ _) Hok1)).
    reflexivity.
Qed.

Lemma fold_left_fmap {A B C} (f : C → B → C) (g : A → B) (l : list A) (a : C) :
  fold_left f (g <$> l) a = fold_left (λ c x, f c (g x)) l a.
Proof. revert a. induction l as [|x l IH]; intros a; [done|]. simpl. apply IH. Qed.

Lemma fold_add_microstate ham T l acc :
  fold_left (add_microstate ham T) l acc
  = (mkSums
       (sum_Z acc + sum_R (boltzmann ham T <$> l))
       (sum_E acc + sum_R ((λ s, boltzmann ham T s * energy ham s) <$> l))
       (sum_EE acc
        + sum_R ((λ s, boltzmann ham T s * (energy ham s * energy ham s)) <$> l))
       (sum_M acc + sum_R ((λ s, boltzmann ham T s * magnetization_of s) <$> l))
       (sum_MM acc
        + sum_R ((λ s, boltzmann ham T s
                       * (magnetization_of s * magnetization_of s)) <$> l)))%R.
Proof.
  revert acc. induction l as [|s l IH]; intros acc.
  - destruct acc. unfold sum_R. simpl. f_equal; lra.
  - simpl fold_left. rewrite IH. rewrite !fmap_cons.
    unfold sum_R, boltzmann. simpl. f_equal; lra.
Qed.

(** C3.  [compute_average_values] at [T <= 0] fails with
    [InvalidTemperatureError] before anything is built or changed.  At
    [T > 0], for a chain of [N >= 1] sites within the enumeration budget,
    it returns [(<E>, <M>, HC, MS)] where each average is the
    Boltzmann-weighted sum over the microstates divided by the partition
    function [Z], [HC = (<E^2> - <E>^2) / T^2] and
    [MS = (<M^2> - <M>^2) / T]; the microstates summed over are exactly the
    [2^N] spin sequences of length [N], each once. *)
Theorem compute_average_values_spec budget n ham T w :
  ((T <= 0)%R →
     compute_average_values budget n ham T w
     = (Raise InvalidTemperatureError, w)) ∧
  ((0 < T)%R → 0 < n → 2 ^ n ≤ budget → n ≤ Z.of_nat (length (h ham)) →
     ∃ w',
       compute_average_values budget n ham T w
       = (Ok (thermal_average ham T (Z.to_nat n) (energy ham),
              thermal_average ham T (Z.to_nat n) magnetization_of,
              ((thermal_average ham T (Z.to_nat n)
                  (λ s, energy ham s * energy ham s)
                - thermal_average ham T (Z.to_nat n) (energy ham)
                  * thermal_average ham T (Z.to_nat n) (energy ham))
               / (T * T))%R,
              ((thermal_average ham T (Z.to_nat n)
                  (λ s, magnetization_of s * magnetization_of s)
                - thermal_average ham T (Z.to_nat n) magnetization_of
                  * thermal_average ham T (Z.to_nat n) magnetization_of)
               / T)%R), w')) ∧
  (0 ≤ n →
     Z.of_nat (length (microstates (Z.to_nat n))) = 2 ^ n ∧
     NoDup (microstates (Z.to_nat n)) ∧
     ∀ s, s ∈ microstates (Z.to_nat n)
          ↔ Z.of_nat (length s) = n ∧ Forall (λ x, x = 0 ∨ x = 1) s).
Proof.
  split; [|split].
  - intros HT. unfold compute_average_values. by rewrite decide_True.
  - intros HT Hn Hb Hh. unfold compute_average_values.
    rewrite decide_False by lra. rewrite decide_False by lia.
    rewrite (bind_Ok _ _ _ _ _ (SpinConfig1D_new_run w n (ham_pbc ham) ltac:(lia))).
    set (conf := fresh_loc w).
    set (c0 := mkSpinConfig1D (all_down n) n (ham_pbc ham)).
    destruct (enumeration_loop ham T conf (Z.to_nat n) (py_range 0 (2 ^ n))
                (update_obj w conf c0) c0 (mkSums 0 0 0 0 0)
                (update_obj_lookup _ _ _)) as [w' Hloop].
    { simpl. lia. }
    { lia. }
    { lia. }
    { apply Forall_forall. intros v Hv. unfold py_range in Hv.
      apply elem_of_seqZ in Hv. rewrite Z2Nat.id by lia. lia. }
    rewrite (bind_Ok _ _ _ _ _ Hloop). exists w'. unfold ret. f_equal. f_equal.
    rewrite <- fold_left_fmap.
    unfold py_range. rewrite Z.sub_0_r.
    pose proof (microstates_decode (Z.to_nat n)) as Hm.
    rewrite Z2Nat.id in Hm by lia.
    rewrite Hm, fold_add_microstate. simpl.
    unfold thermal_average, partition_function.
    rewrite !Rplus_0_l. reflexivity.
  - intros Hn. split; [|split].
    + rewrite microstates_length. by rewrite Z2Nat.id.
    + apply microstates_NoDup.
    + intros s. rewrite elem_of_microstates.
      split; intros [Hl Hs]; (split; [lia | done]).
Qed.

Lemma compute_average_values_spec_witness :
  ∃ w',
    compute_average_values 8 3 ham3 1%R world3
    = (Ok (thermal_average ham3 1%R (Z.to_nat 3) (energy ham3),
           thermal_average ham3 1%R (Z.to_nat 3) magnetization_of,
           ((thermal_average ham3 1%R (Z.to_nat 3)
               (λ s, energy ham3 s * energy ham3 s)
             - thermal_average ham3 1%R (Z.to_nat 3) (energy ham3)
               * thermal_average ham3 1%R (Z.to_nat 3) (energy ham3))
            / (1 * 1))%R,
           ((thermal_average ham3 1%R (Z.to_nat 3)
               (λ s, magnetization_of s * magnetization_of s)
             - thermal_average ham3 1%R (Z.to_nat 3) magnetization_of
               * thermal_average ham3 1%R (Z.to_nat 3) magnetization_of)
            / 1)%R), w').
Proof.
  apply (proj1 (proj2 (compute_average_values_spec 8 3 ham3 1%R world3))).
  - lra.
  - lia.
  - simpl. lia.
  - simpl. lia.
Defined.

(** The partition function is positive, so the averages are well defined. *)
Lemma sum_R_pos (l : list R) :
  l ≠ [] → Forall (λ x, (0 < x)%R) l → (0 < sum_R l)%R.
Proof.
  intros Hne Hl. destruct l as [|x l]; [done|].
  apply Forall_cons in Hl as [Hx Hl]. unfold sum_R. simpl in *.
  assert (0 <= foldr Rplus 0 l)%R as Hrest.
  { clear Hne Hx. induction Hl as [|y l Hy Hl IH]; simpl in *; lra. }
  lra.
Qed.

Lemma partition_function_pos ham T n : (0 < partition_function ham T n)%R.
Proof.
  unfold partition_function. apply sum_R_pos.
  - destruct n; simpl; [done|].
    pose proof (microstates_length n) as Hl.
    destruct (microstates n); [|done]. simpl in Hl.
    pose proof (Z.pow_pos_nonneg 2 (Z.of_nat n) ltac:(lia) ltac:(lia)). lia.
  - apply Forall_fmap, Forall_forall. intros s _. apply exp_pos.
Qed.

(** * Further properties of the source *)

(** ** Edge behaviour of [expectation_value] *)

Lemma for_acc_read_then_raise {A B} (l1 l2 : list A) (x : A)
    (body : B → A → M B) (f : B → A → B) w b e :
  (∀ y b', y ∈ l1 → body b' y w = (Ok (f b' y), w)) →
  (∀ b', body b' x w = (Raise e, w)) →
  for_acc (l1 ++ x :: l2) body b w = (Raise e, w).
Proof.
  revert b. induction l1 as [|y l1 IH]; intros b Hread Hx; simpl.
  - by apply bind_Raise.
  - rewrite (bind_Ok _ _ _ _ _ (Hread y b (list_elem_of_here _ _))).
    apply IH; [|done]. intros z b' Hz. apply Hread. by apply list_elem_of_further.
Qed.

(** X1.  On a chain without sites, [expectation_value] raises [IndexError]
    when the Hamiltonian is periodic (the wrap-around pair reads
    [config[-1]] of an empty array) and returns [0] when it is not. *)
Theorem expectation_value_empty_chain ham w l c :
  heap w !! l = Some c →
  config c = [] →
  N c = 0 →
  expectation_value ham l w
  = if ham_pbc ham then (Raise IndexError, w) else (Ok 0%R, w).
Proof.
  intros E Hc HN. unfold expectation_value.
  rewrite (bind_Ok _ _ _ _ _ (get_N_run _ _ _ E)). rewrite HN.
  change (py_range 0 (0 - 1)) with (@nil Z). change (py_range 0 0) with (@nil Z).
  simpl for_acc. unfold ret at 1. unfold bind at 1.
  destruct (ham_pbc ham); [|done].
  apply bind_Raise, bind_Raise.
  rewrite (getitem_run _ _ _ _ E), Hc. done.
Qed.

Lemma expectation_value_empty_chain_witness :
  expectation_value ham3 0%nat world0 = (Raise IndexError, world0).
Proof.
  apply (expectation_value_empty_chain ham3 world0 0%nat chain0
           eq_refl eq_refl eq_refl).
Defined.

(** X2.  [__init__] of the Hamiltonian does not check the length of [h]:
    on a well-formed chain of [N >= 1] sites with a field list shorter than
    [N], [expectation_value] raises [IndexError] (at the first site without
    a field entry) and leaves the store unchanged. *)
Theorem expectation_value_short_field ham w l c :
  heap w !! l = Some c →
  spins_ok c →
  0 < N c →
  Z.of_nat (length (h ham)) < N c →
  expectation_value ham l w = (Raise IndexError, w).
Proof.
  intros E [Hlen Hs] Hpos Hh. unfold expectation_value.
  rewrite (bind_Ok _ _ _ _ _ (get_N_run _ _ _ E)).
  replace (N c - 1) with (Z.of_nat (length (config c) - 1)) at 1 by lia.
  rewrite (bind_Ok _ _ _ _ _
             (bond_loop_run ham w l c E (length (config c) - 1) 0%R ltac:(lia))).
  set (e0 := (0 + _)%R).
  assert (Hwrap : ∃ e1,
    (if ham_pbc ham
     then let! a := getitem l (N c - 1) in
          let! b := getitem l 0 in
          if decide (a = b) then ret (e0 - J ham)%R else ret (e0 + J ham)%R
     else ret e0) w = (Ok e1, w)).
  { destruct (ham_pbc ham); [|by eexists].
    eexists. by apply (wrap_run ham w l c E Hlen). }
  destruct Hwrap as [e1 Hwrap]. rewrite (bind_Ok _ _ _ _ _ Hwrap).
  set (m := length (h ham)).
  assert (Hsplit : py_range 0 (N c)
                   = (Z.of_nat <$> seq 0 m)
                     ++ Z.of_nat m :: (Z.of_nat <$> seq (S m) (length (config c) - S m))).
  { rewrite <- Hlen, py_range_0.
    replace (length (config c)) with (m + S (length (config c) - S m))%nat at 1
      by lia.
    rewrite seq_app, fmap_app. done. }
  rewrite Hsplit.
  apply for_acc_read_then_raise
    with (f := λ (e : R) (i : Z),
            (e + site_energy (mu ham) (nth (Z.to_nat i) (h ham) 0%R)
                   (spin (config c) (Z.to_nat i)))%R).
  - intros y e' (k & -> & Hk%elem_of_seq)%list_elem_of_fmap.
    rewrite (bind_Ok _ _ _ _ _ (getitem_site w l c k E ltac:(lia))).
    rewrite Nat2Z.id. unfold site_energy.
    destruct (spin_ok (config c) k Hs) as [-> | ->]; simpl;
      unfold bind, lift, ret;
      rewrite (seq_get_site (h ham) k 0%R) by (fold m; lia); f_equal; f_equal; lra.
  - intros e'.
    rewrite (bind_Ok _ _ _ _ _ (getitem_site w l c m E ltac:(lia))).
    assert (Hout : seq_get (h ham) (Z.of_nat m) = Raise IndexError).
    { apply seq_get_out, norm_index_out. fold m. lia. }
    case_decide; unfold bind, lift; by rewrite Hout.
Qed.

Lemma expectation_value_short_field_witness :
  expectation_value ham_short 0%nat world3 = (Raise IndexError, world3).
Proof.
  apply (expectation_value_short_field ham_short world3 0%nat chain3
           eq_refl chain3_ok ltac:(simpl; lia) ltac:(simpl; lia)).
Defined.

(** ** The boundary term, the global spin reversal and the fresh chain *)

(** X3.  For the same [J], [h] and [mu], the periodic energy is the
    open-chain energy plus the one wrap-around bond between sites [N-1]
    and [0]; the configuration's own [pbc] attribute plays no part, only
    the Hamiltonian's does. *)
Theorem expectation_value_wrap_bond Jc hs m w l c b :
  heap w !! l = Some c →
  spins_ok c →
  0 < N c →
  N c ≤ Z.of_nat (length hs) →
  ∃ e,
    expectation_value (mkIsingHamiltonian1D Jc hs m false) l w = (Ok e, w) ∧
    expectation_value (mkIsingHamiltonian1D Jc hs m true) l w
    = (Ok (e + (if decide (spin (config c) (Z.to_nat (N c) - 1)
                           = spin (config c) 0)
                then - Jc else Jc))%R, w) ∧
    expectation_value (mkIsingHamiltonian1D Jc hs m false) l
      (update_obj w l (mkSpinConfig1D (config c) (N c) b))
    = (Ok e, update_obj w l (mkSpinConfig1D (config c) (N c) b)).
Proof.
  intros E Hok Hpos Hh. pose proof Hok as [Hlen Hs].
  eexists. split; [|split].
  - by apply expectation_value_energy.
  - rewrite (expectation_value_energy _ w l c E Hok Hpos) by done.
    do 2 f_equal. unfold energy, bond_term, field_term, pair_energy. simpl.
    replace (Z.to_nat (N c)) with (length (config c)) by lia. lra.
  - by rewrite (expectation_value_energy _ _ l _ (update_obj_lookup _ _ _)).
Qed.

Lemma expectation_value_wrap_bond_witness :
  ∃ e,
    expectation_value (mkIsingHamiltonian1D 1 [1; 1; 1] 2 false)%R 0%nat world3
    = (Ok e, world3) ∧
    expectation_value (mkIsingHamiltonian1D 1 [1; 1; 1] 2 true)%R 0%nat world3
    = (Ok (e + (if decide (spin (config chain3) (Z.to_nat (N chain3) - 1)
                           = spin (config chain3) 0)
                then - 1 else 1))%R, world3) ∧
    expectation_value (mkIsingHamiltonian1D 1 [1; 1; 1] 2 false)%R 0%nat
      (update_obj world3 0%nat (mkSpinConfig1D (config chain3) (N chain3) false))
    = (Ok e, update_obj world3 0%nat
               (mkSpinConfig1D (config chain3) (N chain3) false)).
Proof.
  apply (expectation_value_wrap_bond 1%R [1%R; 1%R; 1%R] 2%R world3 0%nat
           chain3 false eq_refl chain3_ok ltac:(simpl; lia) ltac:(simpl; lia)).
Defined.

Lemma flip_loop l sites w c :
  heap w !! l = Some c →
  Forall (λ i, (i < length (config c))%nat) sites →
  for_each (Z.of_nat <$> sites) (flip_site l) w
  = (Ok tt, update_obj w l (with_config c (flipped_at (config c) sites))).
Proof.
  revert w c. induction sites as [|i sites IH]; intros w c E Hsites.
  - simpl. unfold ret. by rewrite with_config_id, update_obj_same.
  - apply Forall_cons in Hsites as [Hi Hsites]. simpl.
    rewrite (bind_Ok _ _ _ _ _
               (flip_site_run w l c (Z.of_nat i) i E
                  ltac:(rewrite np_norm_index_nonneg by lia; by rewrite Nat2Z.id))).
    rewrite (IH _ _ (update_obj_lookup _ _ _)).
    + by rewrite update_obj_twice.
    + simpl. by rewrite flipped_length.
Qed.

Lemma flipped_middle (a b : list Z) (x : Z) :
  flipped (a ++ x :: b) (length a) = a ++ toggle x :: b.
Proof.
  unfold flipped, spin. rewrite nth_middle.
  rewrite <- (Nat.add_0_r (length a)) at 1. by rewrite insert_app_r.
Qed.

Lemma flipped_at_seq s k :
  (k ≤ length s)%nat →
  flipped_at s (seq 0 k) = (toggle <$> take k s) ++ drop k s.
Proof.
  induction k as [|k IH]; intros Hk; [done|].
  unfold flipped_at in *. rewrite seq_S, fold_left_app. simpl.
  rewrite IH by lia.
  destruct (lookup_lt_is_Some_2 s k) as [x Hx]; [lia|].
  rewrite (take_S_r _ _ _ Hx), fmap_app, <- app_assoc. simpl.
  rewrite (drop_S _ _ _ Hx).
  assert (Hlen : length (toggle <$> take k s) = k)
    by (rewrite length_fmap, length_take; lia).
  pose proof (flipped_middle (toggle <$> take k s) (drop (S k) s) x) as Hm.
  by rewrite Hlen in Hm.
Qed.

Lemma spin_fmap_toggle s i :
  (i < length s)%nat → spin (toggle <$> s) i = toggle (spin s i).
Proof.
  intros Hi. unfold spin at 1. apply nth_lookup_Some.
  rewrite list_lookup_fmap. unfold spin. by rewrite (lookup_nth_lt s i 0).
Qed.

Lemma sum_R_opp {A} (g : A → R) (l : list A) :
  sum_R ((λ x, - g x)%R <$> l) = (- sum_R (g <$> l))%R.
Proof.
  induction l as [|x l IH]; unfold sum_R in *.
  - simpl. lra.
  - rewrite !fmap_cons. simpl foldr. rewrite IH. lra.
Qed.

Lemma bond_term_reversed ham s :
  Forall (λ x, x = 0 ∨ x = 1) s →
  bond_term ham (toggle <$> s) = bond_term ham s.
Proof.
  intros Hs. unfold bond_term. rewrite length_fmap.
  assert (Hpair : ∀ i j, (i < length s)%nat → (j < length s)%nat →
            pair_energy (J ham) (spin (toggle <$> s) i) (spin (toggle <$> s) j)
            = pair_energy (J ham) (spin s i) (spin s j)).
  { intros i j Hi Hj. rewrite !spin_fmap_toggle by done. unfold pair_energy.
    destruct (spin_ok s i Hs) as [-> | ->], (spin_ok s j Hs) as [-> | ->]; done. }
  f_equal.
  - f_equal. apply list_fmap_ext. intros i k [-> Hk]%lookup_seq.
    apply Hpair; lia.
  - destruct (ham_pbc ham); [|done]. destruct s as [|x s]; [done|].
    apply Hpair; simpl; lia.
Qed.

Lemma field_term_reversed ham s :
  Forall (λ x, x = 0 ∨ x = 1) s →
  field_term ham (toggle <$> s) = (- field_term ham s)%R.
Proof.
  intros Hs. unfold field_term. rewrite length_fmap, <- sum_R_opp. f_equal.
  apply list_fmap_ext. intros i k [-> Hk]%lookup_seq. simpl.
  rewrite spin_fmap_toggle by done. unfold site_energy.
  destruct (spin_ok s i Hs) as [-> | ->]; simpl; lra.
Qed.

(** X4.  Flipping every site in turn ([flip_site(0)], ..., [flip_site(N-1)])
    toggles every spin; the energy read afterwards is the bond term of the
    original configuration minus its field term: the global reversal
    leaves the bonds alone and negates the field contribution. *)
Theorem flip_all_energy ham w l c :
  heap w !! l = Some c →
  spins_ok c →
  0 < N c →
  N c ≤ Z.of_nat (length (h ham)) →
  ∃ w',
    flip_all l w = (Ok tt, w') ∧
    heap w' !! l = Some (with_config c (toggle <$> config c)) ∧
    expectation_value ham l w
    = (Ok (bond_term ham (config c) + field_term ham (config c))%R, w) ∧
    expectation_value ham l w'
    = (Ok (bond_term ham (config c) - field_term ham (config c))%R, w').
Proof.
  intros E Hok Hpos Hh. pose proof Hok as [Hlen Hs].
  assert (Hall : flipped_at (config c) (seq 0 (length (config c)))
                 = toggle <$> config c).
  { rewrite flipped_at_seq by done.
    by rewrite firstn_all, drop_all, app_nil_r. }
  eexists. split; [|split; [|split]].
  - unfold flip_all. rewrite (bind_Ok _ _ _ _ _ (get_N_run _ _ _ E)).
    rewrite <- Hlen, py_range_0. apply (flip_loop l _ w c E).
    apply Forall_forall. intros i Hi%elem_of_seq. lia.
  - rewrite update_obj_lookup. by rewrite Hall.
  - by apply expectation_value_energy.
  - rewrite Hall.
    assert (Hok' : spins_ok (with_config c (toggle <$> config c))).
    { split; simpl; [by rewrite length_fmap|].
      apply Forall_fmap, Forall_forall. intros x _. simpl.
      unfold toggle. case_decide; auto. }
    rewrite (expectation_value_energy ham _ l _ (update_obj_lookup _ _ _)
               Hok' ltac:(simpl; lia) Hh).
    simpl. unfold energy.
    by rewrite bond_term_reversed, field_term_reversed by done.
Qed.

Lemma flip_all_energy_witness :
  ∃ w',
    flip_all 0%nat world3 = (Ok tt, w') ∧
    heap w' !! 0%nat = Some (with_config chain3 (toggle <$> config chain3)) ∧
    expectation_value ham3 0%nat world3
    = (Ok (bond_term ham3 (config chain3) + field_term ham3 (config chain3))%R,
       world3) ∧
    expectation_value ham3 0%nat w'
    = (Ok (bond_term ham3 (config chain3) - field_term ham3 (config chain3))%R,
       w').
Proof.
  apply (flip_all_energy ham3 world3 0%nat chain3 eq_refl chain3_ok
           ltac:(simpl; lia) ltac:(simpl; lia)).
Defined.

Lemma sum_R_app (l1 l2 : list R) : sum_R (l1 ++ l2) = (sum_R l1 + sum_R l2)%R.
Proof.
  induction l1 as [|x l1 IH]; unfold sum_R in *; simpl.
  - lra.
  - rewrite IH. lra.
Qed.

Lemma sum_R_const {A} (c : R) (l : list A) :
  sum_R ((λ _, c) <$> l) = (IZR (Z.of_nat (length l)) * c)%R.
Proof.
  induction l as [|x l IH]; unfold sum_R in *.
  - simpl. ring.
  - rewrite fmap_cons. simpl foldr. rewrite IH.
    simpl length. rewrite Nat2Z.inj_succ, succ_IZR. ring.
Qed.

Lemma sum_R_scaled_prefix (m : R) (hs : list R) (k : nat) :
  (k ≤ length hs)%nat →
  sum_R ((λ i, m * nth i hs 0)%R <$> seq 0 k) = (m * sum_R (take k hs))%R.
Proof.
  induction k as [|k IH]; intros Hk.
  - unfold sum_R. simpl. lra.
  - rewrite seq_S, fmap_app, sum_R_app, IH by lia.
    rewrite (take_S_r hs k (nth k hs 0%R)) by (apply lookup_nth_lt; lia).
    rewrite sum_R_app. unfold sum_R. simpl. ring.
Qed.

(** X5.  A freshly constructed chain of [N >= 1] sites is all down, and
    its energy is [-(N-1)*J], minus one more [J] when the Hamiltonian is
    periodic, plus [mu] times the sum of the first [N] field entries. *)
Theorem fresh_chain_energy ham w n b :
  0 < n →
  n ≤ Z.of_nat (length (h ham)) →
  ∃ w',
    SpinConfig1D_new n b w = (Ok (fresh_loc w), w') ∧
    expectation_value ham (fresh_loc w) w'
    = (Ok (- (IZR (n - 1) * J ham)
           + (if ham_pbc ham then - J ham else 0)
           + mu ham * sum_R (take (Z.to_nat n) (h ham)))%R, w').
Proof.
  intros Hn Hh. eexists. split; [apply SpinConfig1D_new_run; lia|].
  set (c := mkSpinConfig1D (all_down n) n b).
  assert (Hok : spins_ok c).
  { split; simpl; [apply all_down_length; lia | apply all_down_ok]. }
  rewrite (expectation_value_energy ham _ _ c (update_obj_lookup _ _ _) Hok
             ltac:(simpl; lia) ltac:(simpl; lia)).
  do 2 f_equal. unfold energy, bond_term, field_term. simpl config.
  assert (Hlen : length (all_down n) = Z.to_nat n)
    by (unfold all_down; apply length_replicate).
  rewrite Hlen. f_equal; [f_equal|].
  - erewrite list_fmap_ext.
    2:{ intros i k _. rewrite !spin_all_down. unfold pair_energy.
        rewrite decide_True by done. reflexivity. }
    rewrite sum_R_const, length_seq.
    replace (Z.of_nat (Z.to_nat n - 1)) with (n - 1) by lia. lra.
  - destruct (ham_pbc ham); [|done]. rewrite !spin_all_down.
    unfold pair_energy. by rewrite decide_True.
  - rewrite <- sum_R_scaled_prefix by lia. f_equal.
    apply list_fmap_ext. intros i k _. rewrite spin_all_down. done.
Qed.

Lemma fresh_chain_energy_witness :
  ∃ w',
    SpinConfig1D_new 3 true world3 = (Ok (fresh_loc world3), w') ∧
    expectation_value ham3 (fresh_loc world3) w'
    = (Ok (- (IZR (3 - 1) * J ham3)
           + (if ham_pbc ham3 then - J ham3 else 0)
           + mu ham3 * sum_R (take (Z.to_nat 3) (h ham3)))%R, w').
Proof.
  apply (fresh_chain_energy ham3 world3 3 true); simpl; lia.
Defined.

(** ** More on [delta_e_for_flip] *)

(** X6.  The energy change is antisymmetric: after the flip has been
    accepted ([flip_site(i)] on the caller's configuration), asking again
    for the change of flipping the same site returns exactly the negation
    of the first answer. *)
Theorem delta_e_for_flip_antisymmetric ham w l c i :
  heap w !! l = Some c →
  spins_ok c →
  0 ≤ i < N c →
  N c ≤ Z.of_nat (length (h ham)) →
  ∃ t1 d1 w1 w2 t2 w3,
    delta_e_for_flip ham i l w = (Ok (t1, d1), w1) ∧
    flip_site l i w1 = (Ok tt, w2) ∧
    delta_e_for_flip ham i l w2 = (Ok (t2, (- d1)%R), w3).
Proof.
  intros E Hok Hi Hh. pose proof Hok as [Hlen Hs].
  pose proof (fresh_loc_ne w l c E) as Hne.
  set (k := Z.to_nat i).
  set (c' := with_config c (flipped (config c) k)).
  assert (Hk : np_norm_index (length (config c)) i = Ok k)
    by (apply np_norm_index_nonneg; lia).
  assert (E1 : heap (update_obj w (fresh_loc w) c') !! l = Some c)
    by (by rewrite update_obj_lookup_ne).
  eexists _, _, _, _, _, _. split; [by apply delta_e_for_flip_run|].
  split; [by apply (flip_site_run _ l c i k E1)|].
  fold k c'.
  rewrite (delta_e_for_flip_run ham _ l c' i (update_obj_lookup _ _ _)
             (with_config_flipped_ok c k Hok) ltac:(simpl; lia) Hh).
  fold k. simpl config. rewrite flipped_flipped by done.
  do 3 f_equal. lra.
Qed.

Lemma delta_e_for_flip_antisymmetric_witness :
  ∃ t1 d1 w1 w2 t2 w3,
    delta_e_for_flip ham3 1 0%nat world3 = (Ok (t1, d1), w1) ∧
    flip_site 0%nat 1 w1 = (Ok tt, w2) ∧
    delta_e_for_flip ham3 1 0%nat w2 = (Ok (t2, (- d1)%R), w3).
Proof.
  apply (delta_e_for_flip_antisymmetric ham3 world3 0%nat chain3 1
           eq_refl chain3_ok ltac:(simpl; lia) ltac:(simpl; lia)).
Defined.



(** ** More on [initialize] *)

Lemma up_count_app (a b : list Z) : up_count (a ++ b) = up_count a + up_count b.
Proof.
  induction a as [|x a IH]; unfold up_count in *; simpl; [done|].
  rewrite IH. lia.
Qed.

Lemma up_count_insert (a : list Z) k x v :
  a !! k = Some x → up_count (<[k := v]> a) = up_count a - x + v.
Proof.
  intros Hx. rewrite insert_take_drop by (by eapply lookup_lt_Some).
  rewrite <- (take_drop_middle a k x Hx) at 3.
  rewrite !up_count_app. unfold up_count. simpl. lia.
Qed.

Lemma up_count_all_down n : up_count (all_down n) = 0.
Proof.
  unfold all_down, up_count. induction (Z.to_nat n) as [|k IH]; simpl; [done|].
  by rewrite IH.
Qed.

Lemma up_count_set_up picks a :
  NoDup picks →
  (∀ i, i ∈ picks →
        0 ≤ i < Z.of_nat (length a) ∧ spin a (Z.to_nat i) = 0) →
  up_count (set_up a picks) = up_count a + Z.of_nat (length picks).
Proof.
  revert a. induction picks as [|i picks IH]; intros a Hnd Hp.
  - unfold set_up. simpl. lia.
  - apply NoDup_cons in Hnd as [Hi Hnd].
    destruct (Hp i (list_elem_of_here _ _)) as [Hri Hsi].
    unfold set_up in *. simpl fold_left. rewrite IH; [|done|].
    + rewrite (up_count_insert a (Z.to_nat i) 0 1).
      * simpl length. lia.
      * rewrite <- Hsi. apply lookup_nth_lt. lia.
    + intros j Hj. destruct (Hp j (list_elem_of_further _ _ _ Hj)) as [Hrj Hsj].
      rewrite length_insert. split; [done|].
      assert (Hne : Z.to_nat i ≠ Z.to_nat j).
      { intros Heq. apply Hi. by replace i with j by lia. }
      rewrite <- Hsj. unfold spin. apply nth_lookup_Some.
      rewrite list_lookup_insert_ne by done. apply lookup_nth_lt. lia.
Qed.

(** X8.  A successful [initialize(M)] (that is, [0 <= M <= N-1]) leaves
    exactly [M] sites up, whatever the random source yields and whatever
    the spins were before; [N] and [pbc] are unchanged. *)
Theorem initialize_up_count w l c Mup :
  heap w !! l = Some c →
  0 ≤ Mup ≤ N c - 1 →
  ∃ w' c',
    initialize l Mup w = (Ok tt, w') ∧
    heap w' !! l = Some c' ∧
    spins_ok c' ∧
    up_count (config c') = Mup ∧
    N c' = N c ∧ pbc c' = pbc c.
Proof.
  intros E HM. eexists _, _.
  split; [apply initialize_run; [done | lia | lia]|].
  split; [apply lookup_insert_eq|].
  destruct (sample_pool_spec (Z.to_nat Mup) (py_range 0 (N c - 1)) (rand w))
    as (Hlen & Hin & Hnd); [rewrite length_py_range; lia|].
  set (picks := (sample_pool (py_range 0 (N c - 1)) (Z.to_nat Mup) (rand w)).1)
    in *.
  split; [|split; [|done]].
  - split; simpl.
    + rewrite set_up_length. apply all_down_length. lia.
    + apply set_up_ok, all_down_ok.
  - simpl. rewrite up_count_set_up.
    + rewrite up_count_all_down, Hlen. lia.
    + apply Hnd. unfold py_range. apply NoDup_seqZ.
    + intros i Hi%Hin. unfold py_range in Hi. apply elem_of_seqZ in Hi.
      split; [|apply spin_all_down].
      unfold all_down. rewrite length_replicate. lia.
Qed.

Lemma initialize_up_count_witness :
  ∃ w' c',
    initialize 0%nat 2 world3 = (Ok tt, w') ∧
    heap w' !! 0%nat = Some c' ∧
    spins_ok c' ∧
    up_count (config c') = 2 ∧
    N c' = N chain3 ∧ pbc c' = pbc chain3.
Proof.
  apply (initialize_up_count world3 0%nat chain3 2 eq_refl). simpl. lia.
Defined.

(** X9.  [initialize(M)] succeeds exactly when [0 <= M <= max(N-1, 0)].
    For every other [M] (negative, or larger than [N-1]) it raises
    [ValueError], by which time the spins have already been reset to all
    down; the random source has not been consumed. *)
Theorem initialize_rejected w l c Mup :
  heap w !! l = Some c →
  0 ≤ N c →
  (0 ≤ Mup ≤ Z.max (N c - 1) 0 → (initialize l Mup w).1 = Ok tt) ∧
  (Mup < 0 ∨ Z.max (N c - 1) 0 < Mup →
     initialize l Mup w
     = (Raise ValueError, update_obj w l (with_config c (all_down (N c))))).
Proof.
  intros E Hn. split.
  - intros HM. by rewrite (initialize_run w l c Mup E Hn) by lia.
  - intros HM. apply initialize_fail; [done | done | lia].
Qed.

Lemma initialize_rejected_witness :
  initialize 0%nat (-1) world3
  = (Raise ValueError, update_obj world3 0%nat (with_config chain3 (all_down 3))).
Proof.
  apply (proj2 (initialize_rejected world3 0%nat chain3 (-1) eq_refl
                  ltac:(simpl; lia))).
  simpl. lia.
Defined.

(** ** More on [flip_site], [__getitem__] and construction *)

Lemma flipped_comm s i j : flipped (flipped s i) j = flipped (flipped s j) i.
Proof.
  destruct (decide (i = j)) as [-> | Hne]; [done|].
  unfold flipped at 1 3. rewrite !spin_flipped_ne by done.
  unfold flipped. by apply list_insert_insert_ne.
Qed.

(** X10.  Flips of two valid sites commute: [flip_site(i)] followed by
    [flip_site(j)] leaves the store exactly as [flip_site(j)] followed by
    [flip_site(i)] does. *)
Theorem flip_site_commute w l c i j :
  heap w !! l = Some c →
  Z.of_nat (length (config c)) = N c →
  0 ≤ i < N c →
  0 ≤ j < N c →
  ∃ wi wj w',
    flip_site l i w = (Ok tt, wi) ∧ flip_site l j wi = (Ok tt, w') ∧
    flip_site l j w = (Ok tt, wj) ∧ flip_site l i wj = (Ok tt, w').
Proof.
  intros E Hlen Hi Hj.
  assert (Hki : np_norm_index (length (config c)) i = Ok (Z.to_nat i))
    by (apply np_norm_index_nonneg; lia).
  assert (Hkj : np_norm_index (length (config c)) j = Ok (Z.to_nat j))
    by (apply np_norm_index_nonneg; lia).
  eexists _, _, _. split; [by apply flip_site_run|]. split.
  - erewrite flip_site_run; [|apply update_obj_lookup|].
    + by rewrite update_obj_twice.
    + simpl. rewrite flipped_length. exact Hkj.
  - split; [by apply flip_site_run|].
    erewrite flip_site_run; [|apply update_obj_lookup|].
    + rewrite update_obj_twice. simpl. by rewrite flipped_comm.
    + simpl. rewrite flipped_length. exact Hki.
Qed.

Lemma flip_site_commute_witness :
  ∃ wi wj w',
    flip_site 0%nat 0 world3 = (Ok tt, wi) ∧ flip_site 0%nat 2 wi = (Ok tt, w') ∧
    flip_site 0%nat 2 world3 = (Ok tt, wj) ∧ flip_site 0%nat 0 wj = (Ok tt, w').
Proof.
  apply (flip_site_commute world3 0%nat chain3 0 2 eq_refl eq_refl);
    simpl; lia.
Defined.

(** X11.  Reading after a flip: once [flip_site(i)] has returned, [self[i]]
    is [0] if the site held [1] before and [1] if it held anything else,
    and every other valid site [j] reads as before. *)
Theorem getitem_after_flip_site w l c i j :
  heap w !! l = Some c →
  Z.of_nat (length (config c)) = N c →
  0 ≤ i < N c →
  0 ≤ j < N c →
  ∃ w',
    flip_site l i w = (Ok tt, w') ∧
    getitem l j w'
    = (Ok (if decide (j = i)
           then if decide (spin (config c) (Z.to_nat i) = 1) then 0 else 1
           else spin (config c) (Z.to_nat j)), w').
Proof.
  intros E Hlen Hi Hj. eexists. split.
  - apply flip_site_run; [done|]. apply np_norm_index_nonneg. lia.
  - rewrite (getitem_run _ _ _ _ (update_obj_lookup _ _ _)). f_equal. simpl.
    rewrite (arr_get_norm _ j (Z.to_nat j) 0)
      by (apply np_norm_index_nonneg; rewrite flipped_length; lia).
    f_equal. fold (spin (flipped (config c) (Z.to_nat i)) (Z.to_nat j)).
    case_decide as Hij.
    + subst j. by rewrite spin_flipped_eq by lia.
    + apply spin_flipped_ne. lia.
Qed.

Lemma getitem_after_flip_site_witness :
  ∃ w',
    flip_site 0%nat 2 world3 = (Ok tt, w') ∧
    getitem 0%nat 2 w'
    = (Ok (if decide (2 = 2)
           then if decide (spin (config chain3) (Z.to_nat 2) = 1) then 0 else 1
           else spin (config chain3) (Z.to_nat 2)), w').
Proof.
  apply (getitem_after_flip_site world3 0%nat chain3 2 2 eq_refl eq_refl);
    simpl; lia.
Defined.

(** X12.  On a [0]/[1] configuration a flip changes the number of up sites
    by exactly one: up by one if the site was down, down by one if it was
    up. *)
Theorem flip_site_up_count w l c i :
  heap w !! l = Some c →
  spins_ok c →
  0 ≤ i < N c →
  ∃ w' c',
    flip_site l i w = (Ok tt, w') ∧
    heap w' !! l = Some c' ∧
    up_count (config c')
    = up_count (config c) + 1 - 2 * spin (config c) (Z.to_nat i).
Proof.
  intros E [Hlen Hs] Hi. eexists _, _. split.
  - apply flip_site_run; [done|]. apply np_norm_index_nonneg. lia.
  - split; [apply update_obj_lookup|]. simpl. unfold flipped.
    rewrite (up_count_insert _ _ (spin (config c) (Z.to_nat i)))
      by (apply lookup_nth_lt; lia).
    unfold toggle.
    destruct (spin_ok (config c) (Z.to_nat i) Hs) as [-> | ->]; simpl; lia.
Qed.

Lemma flip_site_up_count_witness :
  ∃ w' c',
    flip_site 0%nat 2 world3 = (Ok tt, w') ∧
    heap w' !! 0%nat = Some c' ∧
    up_count (config c')
    = up_count (config chain3) + 1 - 2 * spin (config chain3) (Z.to_nat 2).
Proof.
  apply (flip_site_up_count world3 0%nat chain3 2 eq_refl chain3_ok).
  simpl. lia.
Defined.



(** ** The incremental form of the energy change *)

Lemma sum_R_plus_scaled {A} (f g : A → R) (c : R) (l : list A) :
  sum_R ((λ x, f x + c * g x)%R <$> l)
  = (sum_R (f <$> l) + c * sum_R (g <$> l))%R.
Proof.
  induction l as [|x l IH]; unfold sum_R in *.
  - simpl. ring.
  - rewrite !fmap_cons. simpl foldr. rewrite IH. ring.
Qed.

Lemma sum_R_pick (f : nat → R) (a m : nat) :
  sum_R ((λ i, if decide (i = a) then f i else 0%R) <$> seq 0 m)
  = if decide (a < m)%nat then f a else 0%R.
Proof.
  induction m as [|m IH].
  - rewrite decide_False by lia. done.
  - rewrite seq_S, fmap_app, sum_R_app, IH. unfold sum_R. simpl.
    repeat case_decide; subst; try lia; lra.
Qed.

Lemma spin_flipped s k j :
  (k < length s)%nat →
  spin (flipped s k) j = if decide (j = k) then toggle (spin s k) else spin s j.
Proof.
  intros Hk. case_decide as Hj.
  - subst. by apply spin_flipped_eq.
  - apply spin_flipped_ne. auto.
Qed.

Lemma pair_energy_toggle_l Jc a b :
  a = 0 ∨ a = 1 → b = 0 ∨ b = 1 →
  pair_energy Jc (toggle a) b = (- pair_energy Jc a b)%R.
Proof. intros [-> | ->] [-> | ->]; unfold pair_energy; simpl; lra. Qed.

Lemma pair_energy_toggle_r Jc a b :
  a = 0 ∨ a = 1 → b = 0 ∨ b = 1 →
  pair_energy Jc a (toggle b) = (- pair_energy Jc a b)%R.
Proof. intros [-> | ->] [-> | ->]; unfold pair_energy; simpl; lra. Qed.

Lemma site_energy_toggle m hi x :
  x = 0 ∨ x = 1 → site_energy m hi (toggle x) = (- site_energy m hi x)%R.
Proof. intros [-> | ->]; unfold site_energy; simpl; lra. Qed.

Lemma bond_sum_flipped Jc s k :
  Forall (λ x, x = 0 ∨ x = 1) s →
  (k < length s)%nat →
  sum_R ((λ i, pair_energy Jc (spin (flipped s k) i) (spin (flipped s k) (S i)))
           <$> seq 0 (length s - 1))
  = (sum_R ((λ i, pair_energy Jc (spin s i) (spin s (S i)))
              <$> seq 0 (length s - 1))
     + -2 * ((if decide (0 < k)%nat
              then pair_energy Jc (spin s (k - 1)) (spin s k) else 0)
             + (if decide (S k < length s)%nat
                then pair_energy Jc (spin s k) (spin s (S k)) else 0)))%R.
Proof.
  intros Hs Hk.
  set (g := λ i, pair_energy Jc (spin s i) (spin s (S i))).
  set (pa := λ i : nat, if decide (i = (k - 1)%nat)
                        then (λ i, if decide (0 < k)%nat then g i else 0%R) i
                        else 0%R).
  set (pb := λ i : nat, if decide (i = k) then g i else 0%R).
  erewrite list_fmap_ext
    with (g := λ i, (g i + -2 * (λ i, pa i + 1 * pb i)%R i)%R).
  - rewrite sum_R_plus_scaled, sum_R_plus_scaled.
    unfold pa, pb. rewrite !sum_R_pick. unfold g. cbv beta.
    repeat case_decide; try lia;
      try (replace (S (k - 1)) with k by lia); lra.
  - intros i j [-> Hi]%lookup_seq. simpl. unfold pa, pb, g.
    rewrite !spin_flipped by done.
    pose proof (spin_ok s i Hs). pose proof (spin_ok s (S i) Hs).
    pose proof (spin_ok s k Hs).
    repeat case_decide; subst; try lia;
      rewrite ?pair_energy_toggle_l, ?pair_energy_toggle_r by done; lra.
Qed.

Lemma field_sum_flipped ham s k :
  Forall (λ x, x = 0 ∨ x = 1) s →
  (k < length s)%nat →
  field_term ham (flipped s k)
  = (field_term ham s
     + -2 * site_energy (mu ham) (nth k (h ham) 0) (spin s k))%R.
Proof.
  intros Hs Hk. unfold field_term. rewrite flipped_length.
  set (g := λ i, site_energy (mu ham) (nth i (h ham) 0%R) (spin s i)).
  erewrite list_fmap_ext
    with (g := λ i, (g i + -2 * (λ i, if decide (i = k) then g i else 0%R) i)%R).
  - rewrite sum_R_plus_scaled, sum_R_pick. by rewrite decide_True.
  - intros i j [-> Hi]%lookup_seq. simpl. unfold g.
    rewrite spin_flipped by done. case_decide.
    + subst. rewrite site_energy_toggle by by apply spin_ok. lra.
    + lra.
Qed.

Lemma wrap_flipped Jc s k :
  Forall (λ x, x = 0 ∨ x = 1) s →
  (k < length s)%nat →
  pair_energy Jc (spin (flipped s k) (length s - 1)) (spin (flipped s k) 0)
  = (pair_energy Jc (spin s (length s - 1)) (spin s 0)
     + -2 * (if decide ((k = 0%nat ∨ k = (length s - 1)%nat) ∧ (2 ≤ length s)%nat)
             then pair_energy Jc (spin s (length s - 1)) (spin s 0)
             else 0))%R.
Proof.
  intros Hs Hk. rewrite !spin_flipped by done.
  pose proof (spin_ok s (length s - 1) Hs). pose proof (spin_ok s 0 Hs).
  pose proof (spin_ok s k Hs).
  repeat case_decide; subst; try lia;
    rewrite ?pair_energy_toggle_l, ?pair_energy_toggle_r by done; try lra.
  assert (Hz : (length s - 1 = 0)%nat) by lia. rewrite Hz.
  unfold pair_energy. rewrite !decide_True by done. lra.
Qed.

Lemma energy_flipped ham s k :
  Forall (λ x, x = 0 ∨ x = 1) s →
  (k < length s)%nat →
  (energy ham (flipped s k) - energy ham s = -2 * local_energy ham s k)%R.
Proof.
  intros Hs Hk. unfold energy, bond_term, local_energy.
  rewrite field_sum_flipped by done.
  rewrite flipped_length, bond_sum_flipped by done.
  destruct (ham_pbc ham); [rewrite wrap_flipped by done|]; lra.
Qed.

(** X14.  The energy change that [delta_e_for_flip] obtains from two full
    evaluations equals what the incremental computation gives: minus twice
    the terms that involve site [i] (the bonds to the left and right
    neighbours, the wrap-around bond at the ends of a periodic chain of at
    least two sites, and the field term of the site). *)
Theorem delta_e_for_flip_local ham w l c i :
  heap w !! l = Some c →
  spins_ok c →
  0 ≤ i < N c →
  N c ≤ Z.of_nat (length (h ham)) →
  ∃ trial w',
    delta_e_for_flip ham i l w
    = (Ok (trial, (-2 * local_energy ham (config c) (Z.to_nat i))%R), w').
Proof.
  intros E Hok Hi Hh. pose proof Hok as [Hlen Hs].
  eexists _, _. rewrite (delta_e_for_flip_run ham w l c i E Hok Hi Hh).
  by rewrite energy_flipped by (done || lia).
Qed.

Lemma delta_e_for_flip_local_witness :
  ∃ trial w',
    delta_e_for_flip ham3 1 0%nat world3
    = (Ok (trial, (-2 * local_energy ham3 (config chain3) (Z.to_nat 1))%R), w').
Proof.
  apply (delta_e_for_flip_local ham3 world3 0%nat chain3 1
           eq_refl chain3_ok ltac:(simpl; lia) ltac:(simpl; lia)).
Defined.

(** ** The placeholder functions *)

(** X15.  [canvas] and [canvas2] return the same string for every
    argument; the attribution is only ever appended, so the result always
    begins with the 44 characters of the bare quote, and it is longer than
    the bare quote exactly when the attribution was asked for. *)
Theorem canvas_canvas2 (with_attribution : bool) :
  canvas2 with_attribution = canvas with_attribution ∧
  String.substring 0 44 (canvas with_attribution) = canvas false ∧
  (String.length (canvas with_attribution) =? 44)%nat = negb with_attribution.
Proof. by destruct with_attribution. Qed.
